(** * homelab-horizon: the dry-run capability layer and the WireGuard
      configuration model

    A shallow embedding of [internal/system/interfaces.go] (the FileSystem
    and CommandRunner contracts with their dry-run implementations) and of
    the WireGuard configuration model exercised by the [wireguard] package's
    tests, with the properties the specification states about them. *)

From Stdlib Require Import ZArith String Ascii List Lia Bool.
From stdpp Require Import base option list gmap strings pretty.

Local Open Scope Z_scope.

(** ** Go values shared by both packages *)

Module Go.

(** A Go [error] interface value: [nil], or a value carrying a message. *)
Inductive error : Type :=
| nil_error
| new_error (msg : string).

Global Instance error_eq_dec : EqDecision error.
Proof. solve_decision. Defined.

(** [err == nil] *)
Definition is_nil (e : error) : bool :=
  match e with nil_error => true | new_error _ => false end.

(** A Go [[]byte]: the nil slice ([None]) or a slice with contents. The
    model treats the contents as a value: callers do not write into a slice
    after handing it over. *)
Abbreviation bytes := (option (list Byte.byte)).

(** [[]byte(s)] *)
Definition bytes_of_string (s : string) : bytes :=
  Some (String.list_byte_of_string s).

(** [string(b)]: the nil slice converts to the empty string. *)
Definition string_of_bytes (b : bytes) : string :=
  match b with
  | None => EmptyString
  | Some l => String.string_of_list_byte l
  end.

(** [os.FileMode], a 32-bit unsigned integer. *)
Definition FileMode : Type := Z.

(** [context.Context]; the dry-run runner receives it and never looks. *)
Inductive Context : Type :=
| Background
| Cancelled.

(** [sync.Mutex] as seen by one thread of control: it is held or free. *)
Inductive Mutex : Type :=
| Unlocked
| Locked.

End Go.

Export Go.

(** ** A state monad for method bodies

    A method receives the state it runs in and either returns a result with
    the new state, or does not return normally ([None]): it blocks for ever
    on a mutex that nobody is going to release, or the runtime aborts it
    (index out of range, unlock of a free mutex). *)

Module Method.

Definition M (S A : Type) : Type := S → option (A * S).

Definition ret {S A} (a : A) : M S A := λ s, Some (a, s).

Definition bind {S A B} (m : M S A) (k : A → M S B) : M S B :=
  λ s, match m s with
       | Some (a, s') => k a s'
       | None => None
       end.

Definition get {S} : M S S := λ s, Some (s, s).

Definition modify {S} (f : S → S) : M S unit := λ s, Some (tt, f s).

Definition abort {S A} : M S A := λ _, None.

(** The state of an object that embeds a [sync.Mutex]. *)
Class Locker (S : Type) := {
  mutex : S → Mutex;
  set_mutex : Mutex → S → S
}.

(** [mu.Lock()] *)
Definition Lock {S} `{Locker S} : M S unit :=
  λ s, match mutex s with
       | Unlocked => Some (tt, set_mutex Locked s)
       | Locked => None
       end.

(** [mu.Unlock()] *)
Definition Unlock {S} `{Locker S} : M S unit :=
  λ s, match mutex s with
       | Locked => Some (tt, set_mutex Unlocked s)
       | Unlocked => None
       end.

(** [mu.Lock(); defer mu.Unlock(); body] *)
Definition locked {S A} `{Locker S} (body : M S A) : M S A :=
  bind Lock (λ _, bind body (λ a, bind Unlock (λ _, ret a))).

End Method.

Export Method.

Global Instance M_ret {S} : MRet (M S) := λ A, ret.
Global Instance M_bind {S} : MBind (M S) := λ A B k m, bind m k.

(** ** Package [system]: [internal/system/interfaces.go] *)

Module System.

(** [mockFileInfo], the [os.FileInfo] the dry-run file system hands out. *)
Record mockFileInfo : Type := {
  path : string;
  isDir : bool
}.

(** An [os.FileInfo] interface value that is not nil: the mock of this
    package, or whatever the operating system's [os.Stat] produced. *)
Inductive FileInfo : Type :=
| FileInfo_mock (fi : mockFileInfo)
| FileInfo_os (name : string) (size : Z) (mode : FileMode) (dir : bool).

Definition Name (fi : FileInfo) : string :=
  match fi with
  | FileInfo_mock m => path m
  | FileInfo_os name _ _ _ => name
  end.

Definition Size (fi : FileInfo) : Z :=
  match fi with
  | FileInfo_mock _ => 0
  | FileInfo_os _ size _ _ => size
  end.

(** [0644] is an octal literal. *)
Definition Mode (fi : FileInfo) : FileMode :=
  match fi with
  | FileInfo_mock _ => 420
  | FileInfo_os _ _ mode _ => mode
  end.

Definition IsDir (fi : FileInfo) : bool :=
  match fi with
  | FileInfo_mock m => isDir m
  | FileInfo_os _ _ _ dir => dir
  end.

(** [mockFile]: reads hit the end of file at once, writes are swallowed. *)
Record mockFile : Type := { file_path : string }.

Definition EOF : error := new_error "EOF".

Definition mockFile_Read (f : mockFile) (p : list Byte.byte) : Z * error :=
  (0, EOF).

Definition mockFile_Write (f : mockFile) (p : list Byte.byte) : Z * error :=
  (Z.of_nat (length p), nil_error).

Definition mockFile_Close (f : mockFile) : error := nil_error.

Definition mockFile_Stat (f : mockFile) : option FileInfo * error :=
  (Some (FileInfo_mock {| path := file_path f; isDir := false |}), nil_error).

(** The values an [io.Reader] or [io.WriteCloser] interface can hold here
    when it is not nil. *)
Inductive Stream : Type :=
| Stream_mockFile (f : mockFile).

(** [r.Read(p)] on an interface value: calling a method of the nil
    interface aborts the program. *)
Definition Stream_Read (r : option Stream) (p : list Byte.byte)
  : option (Z * error) :=
  match r with
  | None => None
  | Some (Stream_mockFile f) => Some (mockFile_Read f p)
  end.

Definition Stream_Write (w : option Stream) (p : list Byte.byte)
  : option (Z * error) :=
  match w with
  | None => None
  | Some (Stream_mockFile f) => Some (mockFile_Write f p)
  end.

Definition Stream_Close (w : option Stream) : option error :=
  match w with
  | None => None
  | Some (Stream_mockFile f) => Some (mockFile_Close f)
  end.

(** A stream with nothing left in it: every read reports the end of file
    and delivers no byte. *)
Definition drained (r : option Stream) : Prop :=
  ∀ p, Stream_Read r p = Some (0, EOF).

(** [mockProcess], an empty struct, and the [Process] interface. *)
Inductive mockProcess : Type := mkMockProcess.

Class Process (P : Type) := {
  Wait : P → error;
  Kill : P → error;
  StdinPipe : P → option Stream * error;
  StdoutPipe : P → option Stream * error;
  StderrPipe : P → option Stream * error
}.

Global Instance mockProcess_Process : Process mockProcess := {
  Wait _ := nil_error;
  Kill _ := nil_error;
  StdinPipe _ := (None, nil_error);
  StdoutPipe _ := (None, nil_error);
  StderrPipe _ := (None, nil_error)
}.

(** What the [os] package does on the machine the program runs on. Reads
    inspect the host, writes produce a new one. *)
Class OperatingSystem (Host : Type) := {
  os_ReadFile : string → Host → bytes * error;
  os_WriteFile : string → bytes → FileMode → Host → error * Host;
  os_Stat : string → Host → option FileInfo * error;
  os_Remove : string → Host → error * Host;
  os_MkdirAll : string → FileMode → Host → error * Host
}.

(** The [FileSystem] interface. *)
Class FileSystem (S : Type) := {
  fs_ReadFile : string → M S (bytes * error);
  fs_WriteFile : string → bytes → FileMode → M S error;
  fs_Stat : string → M S (option FileInfo * error);
  fs_Exists : string → M S bool;
  fs_Remove : string → M S error;
  fs_MkdirAll : string → FileMode → M S error
}.

(** [DryRunFileSystem] *)
Record DryRunFileSystem : Type := {
  mu : Mutex;
  files : gmap string bytes;
  written : gmap string bytes;
  created : gmap string bool;
  removed : gmap string bool;
  mkdirs : gmap string bool
}.

Definition NewDryRunFileSystem : DryRunFileSystem :=
  {| mu := Unlocked; files := ∅; written := ∅; created := ∅;
     removed := ∅; mkdirs := ∅ |}.

Definition set_mu (m : Mutex) (fs : DryRunFileSystem) : DryRunFileSystem :=
  {| mu := m; files := files fs; written := written fs;
     created := created fs; removed := removed fs; mkdirs := mkdirs fs |}.

(** [fs.files[path] = data] *)
Definition store_files (p : string) (data : bytes) (fs : DryRunFileSystem)
  : DryRunFileSystem :=
  {| mu := mu fs; files := <[p:=data]> (files fs); written := written fs;
     created := created fs; removed := removed fs; mkdirs := mkdirs fs |}.

(** [fs.written[path] = data] *)
Definition store_written (p : string) (data : bytes) (fs : DryRunFileSystem)
  : DryRunFileSystem :=
  {| mu := mu fs; files := files fs; written := <[p:=data]> (written fs);
     created := created fs; removed := removed fs; mkdirs := mkdirs fs |}.

(** [fs.removed[path] = true] *)
Definition store_removed (p : string) (fs : DryRunFileSystem)
  : DryRunFileSystem :=
  {| mu := mu fs; files := files fs; written := written fs;
     created := created fs; removed := <[p:=true]> (removed fs);
     mkdirs := mkdirs fs |}.

(** [fs.mkdirs[path] = true] *)
Definition store_mkdirs (p : string) (fs : DryRunFileSystem)
  : DryRunFileSystem :=
  {| mu := mu fs; files := files fs; written := written fs;
     created := created fs; removed := removed fs;
     mkdirs := <[p:=true]> (mkdirs fs) |}.

(** [result := make(map); for k, v := range m { result[k] = v }] *)
Definition copy_map {V} (m : gmap string V) : gmap string V :=
  map_fold (λ k v result, <[k:=v]> result) ∅ m.

Section FileSystems.
Context {Host : Type} `{OperatingSystem Host}.

(** *** [RealFileSystem]: every method is the [os] call. The receiver
    is an empty struct, so the state is the host alone. *)

Definition Real_ReadFile (p : string) : M Host (bytes * error) :=
  λ h, Some (os_ReadFile p h, h).

Definition Real_WriteFile (p : string) (data : bytes) (perm : FileMode)
  : M Host error :=
  λ h, Some (os_WriteFile p data perm h).

Definition Real_Stat (p : string) : M Host (option FileInfo * error) :=
  λ h, Some (os_Stat p h, h).

Definition Real_Exists (p : string) : M Host bool :=
  λ h, Some (is_nil (os_Stat p h).2, h).

Definition Real_Remove (p : string) : M Host error :=
  λ h, Some (os_Remove p h).

Definition Real_MkdirAll (p : string) (perm : FileMode) : M Host error :=
  λ h, Some (os_MkdirAll p perm h).

Global Instance RealFileSystem : FileSystem Host := {
  fs_ReadFile := Real_ReadFile;
  fs_WriteFile := Real_WriteFile;
  fs_Stat := Real_Stat;
  fs_Exists := Real_Exists;
  fs_Remove := Real_Remove;
  fs_MkdirAll := Real_MkdirAll
}.

(** *** [DryRunFileSystem]: the methods run against the host and the
    overlay. *)

Definition DryRun : Type := Host * DryRunFileSystem.

Global Instance DryRun_Locker : Locker DryRun := {
  mutex s := mu s.2;
  set_mutex m s := (s.1, set_mu m s.2)
}.

Definition overlay (f : DryRunFileSystem → DryRunFileSystem)
  : M DryRun unit :=
  modify (λ s, (s.1, f s.2)).

Definition ReadFile (p : string) : M DryRun (bytes * error) :=
  locked (
    s ← get;
    match written s.2 !! p with
    | Some data => mret (data, nil_error)
    | None =>
        match files s.2 !! p with
        | Some data => mret (data, nil_error)
        | None => mret (os_ReadFile p s.1)
        end
    end).

Definition WriteFile (p : string) (data : bytes) (perm : FileMode)
  : M DryRun error :=
  locked (overlay (store_written p data);; mret nil_error).

Definition Stat (p : string) : M DryRun (option FileInfo * error) :=
  locked (
    s ← get;
    match files s.2 !! p with
    | Some _ =>
        mret (Some (FileInfo_mock {| path := p; isDir := false |}),
              nil_error)
    | None =>
        match created s.2 !! p with
        | Some _ =>
            mret (Some (FileInfo_mock {| path := p; isDir := false |}),
                  nil_error)
        | None =>
            match mkdirs s.2 !! p with
            | Some _ =>
                mret (Some (FileInfo_mock {| path := p; isDir := true |}),
                      nil_error)
            | None => mret (os_Stat p s.1)
            end
        end
    end).

Definition Exists (p : string) : M DryRun bool :=
  locked (
    s ← get;
    match files s.2 !! p with
    | Some _ => mret true
    | None =>
        match created s.2 !! p with
        | Some _ => mret true
        | None =>
            match mkdirs s.2 !! p with
            | Some _ => mret true
            | None => mret (is_nil (os_Stat p s.1).2)
            end
        end
    end).

Definition Remove (p : string) : M DryRun error :=
  locked (overlay (store_removed p);; mret nil_error).

Definition MkdirAll (p : string) (perm : FileMode) : M DryRun error :=
  locked (overlay (store_mkdirs p);; mret nil_error).

Definition AddFile (p : string) (data : bytes) : M DryRun unit :=
  locked (overlay (store_files p data)).

Definition GetWrittenFiles : M DryRun (gmap string bytes) :=
  locked (s ← get; mret (copy_map (written s.2))).

Definition GetCreatedFiles : M DryRun (gmap string bool) :=
  locked (s ← get; mret (copy_map (created s.2))).

Definition GetRemovedFiles : M DryRun (gmap string bool) :=
  locked (s ← get; mret (copy_map (removed s.2))).

Definition GetCreatedDirs : M DryRun (gmap string bool) :=
  locked (s ← get; mret (copy_map (mkdirs s.2))).

Global Instance DryRunFileSystem_FileSystem : FileSystem DryRun := {
  fs_ReadFile := ReadFile;
  fs_WriteFile := WriteFile;
  fs_Stat := Stat;
  fs_Exists := Exists;
  fs_Remove := Remove;
  fs_MkdirAll := MkdirAll
}.

(** A call of one of the three recording methods, and a program that
    makes such calls one after the other, collecting what each returns. *)
Inductive Call : Type :=
| CallWriteFile (p : string) (data : bytes) (perm : FileMode)
| CallMkdirAll (p : string) (perm : FileMode)
| CallRemove (p : string).

Definition call (c : Call) : M DryRun error :=
  match c with
  | CallWriteFile p data perm => WriteFile p data perm
  | CallMkdirAll p perm => MkdirAll p perm
  | CallRemove p => Remove p
  end.

Fixpoint calls (cs : list Call) : M DryRun (list error) :=
  match cs with
  | [] => mret []
  | c :: cs' => e ← call c; es ← calls cs'; mret (e :: es)
  end.

End FileSystems.

(** What a sequence of calls asked for, read off the calls themselves:
    the data of the last [WriteFile] to a path, and whether a path was
    passed to [MkdirAll] or to [Remove]. A later [WriteFile] to a path
    replaces what an earlier one recorded for it. *)
Fixpoint last_written (p : string) (cs : list Call) : option bytes :=
  match cs with
  | [] => None
  | c :: cs' =>
      match last_written p cs' with
      | Some data => Some data
      | None =>
          match c with
          | CallWriteFile q data _ =>
              if decide (q = p) then Some data else None
          | _ => None
          end
      end
  end.

Definition mkdir_paths (cs : list Call) : list string :=
  omap (λ c, match c with CallMkdirAll p _ => Some p | _ => None end) cs.

Definition remove_paths (cs : list Call) : list string :=
  omap (λ c, match c with CallRemove p => Some p | _ => None end) cs.

(** *** [DryRunCommandRunner] *)

(** [commandString]: [cmd[0]] aborts on an empty slice. *)
Definition commandString (cmd : list string) : option string :=
  match cmd with
  | [] => None
  | c0 :: rest =>
      Some (fold_left (λ result arg, result +:+ " " +:+ arg) rest c0)
  end.

(** A [Process] interface value that is not nil. *)
Inductive ProcessValue : Type :=
| Process_mock (p : mockProcess).

Global Instance ProcessValue_Process : Process ProcessValue := {
  Wait v := match v with Process_mock p => Wait p end;
  Kill v := match v with Process_mock p => Kill p end;
  StdinPipe v := match v with Process_mock p => StdinPipe p end;
  StdoutPipe v := match v with Process_mock p => StdoutPipe p end;
  StderrPipe v := match v with Process_mock p => StderrPipe p end
}.

Module Runner.

Record DryRunCommandRunner : Type := {
  mu : Mutex;
  ran : list string;
  output : gmap string bytes;
  errors : gmap string error
}.

Definition NewDryRunCommandRunner : DryRunCommandRunner :=
  {| mu := Unlocked; ran := []; output := ∅; errors := ∅ |}.

Global Instance DryRunCommandRunner_Locker : Locker DryRunCommandRunner := {
  mutex r := mu r;
  set_mutex m r :=
    {| mu := m; ran := ran r; output := output r; errors := errors r |}
}.

(** [r.ran = append(r.ran, cmdStr)] *)
Definition log (cmdStr : string) (r : DryRunCommandRunner)
  : DryRunCommandRunner :=
  {| mu := mu r; ran := ran r ++ [cmdStr]; output := output r;
     errors := errors r |}.

(** The value of an expression that may abort the program. *)
Definition eval {A} (o : option A) : M DryRunCommandRunner A :=
  match o with
  | Some a => ret a
  | None => abort
  end.

Definition Run (ctx : Context) (name : string) (args : list string)
  : M DryRunCommandRunner error :=
  locked (
    let cmd := [name] ++ args in
    cmdStr ← eval (commandString cmd);
    modify (log cmdStr);;
    r ← get;
    match errors r !! cmdStr with
    | Some err => mret err
    | None => mret nil_error
    end).

Definition Output (ctx : Context) (name : string) (args : list string)
  : M DryRunCommandRunner (bytes * error) :=
  locked (
    let cmd := [name] ++ args in
    cmdStr ← eval (commandString cmd);
    modify (log cmdStr);;
    r ← get;
    match errors r !! cmdStr with
    | Some err => mret (None, err)
    | None =>
        match output r !! cmdStr with
        | Some out => mret (out, nil_error)
        | None => mret (Some [], nil_error)
        end
    end).

Definition CombinedOutput (ctx : Context) (name : string)
    (args : list string) : M DryRunCommandRunner (bytes * error) :=
  Output ctx name args.

Definition Start (ctx : Context) (name : string) (args : list string)
  : M DryRunCommandRunner (option ProcessValue * error) :=
  locked (
    let cmd := [name] ++ args in
    cmdStr ← eval (commandString cmd);
    modify (log cmdStr);;
    r ← get;
    match errors r !! cmdStr with
    | Some err => mret (None, err)
    | None => mret (Some (Process_mock mkMockProcess), nil_error)
    end).

Definition LookPath (file : string)
  : M DryRunCommandRunner (string * error) :=
  locked (
    modify (log ("lookpath: " +:+ file));;
    mret ("/usr/bin/" +:+ file, nil_error)).

Definition AddOutput (command : string) (out : bytes)
  : M DryRunCommandRunner unit :=
  locked (modify (λ r,
    {| mu := mu r; ran := ran r; output := <[command:=out]> (output r);
       errors := errors r |})).

Definition AddError (command : string) (err : error)
  : M DryRunCommandRunner unit :=
  locked (modify (λ r,
    {| mu := mu r; ran := ran r; output := output r;
       errors := <[command:=err]> (errors r) |})).

Definition GetRunCommands : M DryRunCommandRunner (list string) :=
  locked (r ← get; mret (ran r)).

Definition Clear : M DryRunCommandRunner unit :=
  locked (modify (λ r,
    {| mu := mu r; ran := take 0 (ran r); output := ∅; errors := ∅ |})).

End Runner.

(** *** A small host for running examples: files with their contents and
    a set of directories. *)
Record MemHost : Type := {
  host_files : gmap string (list Byte.byte);
  host_dirs : gset string
}.

Definition NotExist (op p : string) : error :=
  new_error (op +:+ " " +:+ p +:+ ": no such file or directory").

Global Instance MemHost_OS : OperatingSystem MemHost := {
  os_ReadFile p h :=
    match host_files h !! p with
    | Some data => (Some data, nil_error)
    | None => (None, NotExist "open" p)
    end;
  os_WriteFile p data perm h :=
    (nil_error,
     {| host_files := <[p := default [] data]> (host_files h);
        host_dirs := host_dirs h |});
  os_Stat p h :=
    match host_files h !! p with
    | Some data =>
        (Some (FileInfo_os p (Z.of_nat (length data)) 420 false), nil_error)
    | None =>
        if decide (p ∈ host_dirs h)
        then (Some (FileInfo_os p 0 493 true), nil_error)
        else (None, NotExist "stat" p)
    end;
  os_Remove p h :=
    match host_files h !! p with
    | Some _ =>
        (nil_error,
         {| host_files := delete p (host_files h);
            host_dirs := host_dirs h |})
    | None => (NotExist "remove" p, h)
    end;
  os_MkdirAll p perm h :=
    (nil_error,
     {| host_files := host_files h; host_dirs := {[p]} ∪ host_dirs h |})
}.

Definition empty_host : MemHost :=
  {| host_files := ∅; host_dirs := ∅ |}.

(** The dry-run file system of [TestDryRunFileSystem] after its
    [AddFile]. *)
Definition seeded : DryRunFileSystem :=
  store_files "/test.txt" (bytes_of_string "test content")
    NewDryRunFileSystem.

(** The error value of the tests, [&testError{"command failed"}]. *)
Definition testError : error := new_error "command failed".

(** The runner of [TestDryRunCommandRunner] once the canned error is
    registered. *)
Definition failing_runner : Runner.DryRunCommandRunner :=
  {| Runner.mu := Unlocked;
     Runner.ran := ["test arg1 arg2"; "echo hello"; "echo hello"];
     Runner.output := {["echo hello" := bytes_of_string "hello world"]};
     Runner.errors := {["failing-command" := testError]} |}.

End System.

(** ** Text helpers, after Go's [strings] package *)

Module Strings.

(** [unicode.IsSpace] on the ASCII range: tab, line feed, vertical tab,
    form feed, carriage return and the space. *)
Definition is_space (a : ascii) : bool := Ascii.is_space a.

(** Every character of the string is white space. *)
Fixpoint all_space (s : string) : bool :=
  match s with
  | "" => true
  | String a s' => is_space a && all_space s'
  end.

(** The character occurs in the string. *)
Fixpoint occurs (c : ascii) (s : string) : bool :=
  match s with
  | "" => false
  | String a s' => Ascii.eqb a c || occurs c s'
  end.

Definition first_char (s : string) : option ascii :=
  match s with
  | "" => None
  | String a _ => Some a
  end.

Fixpoint last_char (s : string) : option ascii :=
  match s with
  | "" => None
  | String a "" => Some a
  | String _ s' => last_char s'
  end.

(** The character, if there is one, is not white space. *)
Definition solid (o : option ascii) : Prop :=
  match o with
  | Some a => is_space a = false
  | None => True
  end.

(** [strings.TrimLeftFunc(s, unicode.IsSpace)] *)
Fixpoint TrimLeft (s : string) : string :=
  match s with
  | "" => ""
  | String a s' => if is_space a then TrimLeft s' else s
  end.

(** [strings.TrimRightFunc(s, unicode.IsSpace)] *)
Fixpoint TrimRight (s : string) : string :=
  match s with
  | "" => ""
  | String a s' =>
      match TrimRight s' with
      | "" => if is_space a then "" else String a ""
      | t => String a t
      end
  end.

(** [strings.TrimSpace] *)
Definition TrimSpace (s : string) : string := TrimRight (TrimLeft s).

(** [strings.Cut(s, sep)] for a separator of one character: the text
    before and after its first occurrence. *)
Fixpoint Cut (sep : ascii) (s : string) : option (string * string) :=
  match s with
  | "" => None
  | String a s' =>
      if Ascii.eqb a sep then Some ("", s')
      else match Cut sep s' with
           | Some (before, after) => Some (String a before, after)
           | None => None
           end
  end.

(** [strings.Split(s, sep)] for a separator of one character. *)
Fixpoint Split (sep : ascii) (s : string) : list string :=
  match s with
  | "" => [""]
  | String a s' =>
      if Ascii.eqb a sep then "" :: Split sep s'
      else match Split sep s' with
           | [] => [String a ""]
           | w :: ws => String a w :: ws
           end
  end.

(** [strings.Join(ws, sep)] *)
Definition Join (sep : string) (ws : list string) : string :=
  String.concat sep ws.

(** [strings.HasPrefix] *)
Definition HasPrefix (s pre : string) : bool := String.prefix pre s.


End Strings.

(** ** Package [wireguard]

    The tests of the package are among the sources, wireguard.go itself is
    not. The records follow the fields the tests read; the operations are
    modelled from the specification, each marked as such. *)

Module WireGuard.
Import Strings.

(** [Peer], with the fields [TestLoad] reads. *)
Record Peer : Type := {
  Name : string;
  PublicKey : string;
  AllowedIPs : string
}.

(** Modelled from the spec: [Config] (wireguard.go is not among the
    sources). The tests read [path], [iface], [privateKey], [address] and
    [listenPort]; [postUp], [postDown] and [peers] are those of the data
    model of the specification. *)
Record Config : Type := {
  path : string;
  iface : string;
  privateKey : string;
  address : string;
  listenPort : string;
  postUp : string;
  postDown : string;
  peers : list Peer
}.

(** [NewConfig(path, iface)]: [TestNewConfig] reads the two back; the rest
    is Go's zero value. *)
Definition NewConfig (p i : string) : Config :=
  {| path := p; iface := i; privateKey := ""; address := "";
     listenPort := ""; postUp := ""; postDown := ""; peers := [] |}.

(** Modelled from the spec: [extractValue] (wireguard.go is not among the
    sources; its tests are). The value of a line is what follows the
    first [=], with the white space at both ends removed; a line without
    [=] has the empty value. *)
Definition extractValue (line : string) : string :=
  match Cut "=" line with
  | Some (_, value) => TrimSpace value
  | None => ""
  end.

(** Modelled from the spec: the key of a line, the text left of the first
    [=], trimmed (the whole line, trimmed, when there is no [=]). *)
Definition extractKey (line : string) : string :=
  match Cut "=" line with
  | Some (key, _) => TrimSpace key
  | None => TrimSpace line
  end.

(** Modelled from the spec: the section the parser is in, [Unset],
    [Interface] or [Peer]. *)
Inductive Section : Type :=
| Unset
| InInterface
| InPeer.

(** Modelled from the spec: the state of [Load]'s loop over the lines
    (wireguard.go is not among the sources): the configuration built so
    far, the current section, whether the current peer is still waiting
    for its first key line, and the one-slot look-back that holds the name
    of a comment when the line just read was one. *)
Record Parser : Type := {
  config : Config;
  section : Section;
  fresh : bool;
  lookback : option string
}.

Definition emptyPeer : Peer :=
  {| Name := ""; PublicKey := ""; AllowedIPs := "" |}.

Definition set_peers (ps : list Peer) (c : Config) : Config :=
  {| path := path c; iface := iface c; privateKey := privateKey c;
     address := address c; listenPort := listenPort c;
     postUp := postUp c; postDown := postDown c; peers := ps |}.

(** Modelled from the spec: the recognised [Interface] keys
    ([PrivateKey], [Address], [ListenPort], [PostUp], [PostDown]), each
    with the field its value goes to. Keys that are not recognised leave
    the configuration as it is. *)
Definition setInterface (key value : string) (c : Config) : Config :=
  if String.eqb key "PrivateKey" then
    {| path := path c; iface := iface c; privateKey := value;
       address := address c; listenPort := listenPort c;
       postUp := postUp c; postDown := postDown c; peers := peers c |}
  else if String.eqb key "Address" then
    {| path := path c; iface := iface c; privateKey := privateKey c;
       address := value; listenPort := listenPort c;
       postUp := postUp c; postDown := postDown c; peers := peers c |}
  else if String.eqb key "ListenPort" then
    {| path := path c; iface := iface c; privateKey := privateKey c;
       address := address c; listenPort := value;
       postUp := postUp c; postDown := postDown c; peers := peers c |}
  else if String.eqb key "PostUp" then
    {| path := path c; iface := iface c; privateKey := privateKey c;
       address := address c; listenPort := listenPort c;
       postUp := value; postDown := postDown c; peers := peers c |}
  else if String.eqb key "PostDown" then
    {| path := path c; iface := iface c; privateKey := privateKey c;
       address := address c; listenPort := listenPort c;
       postUp := postUp c; postDown := value; peers := peers c |}
  else c.

(** Modelled from the spec: the recognised [Peer] keys, [PublicKey] and
    [AllowedIPs]; any other key is ignored. *)
Definition setPeer (key value : string) (p : Peer) : Peer :=
  if String.eqb key "PublicKey" then
    {| Name := Name p; PublicKey := value; AllowedIPs := AllowedIPs p |}
  else if String.eqb key "AllowedIPs" then
    {| Name := Name p; PublicKey := PublicKey p; AllowedIPs := value |}
  else p.

Definition setName (n : string) (p : Peer) : Peer :=
  {| Name := n; PublicKey := PublicKey p; AllowedIPs := AllowedIPs p |}.

(** The peer being filled is the last of the list. *)
Fixpoint updateLast (f : Peer → Peer) (ps : list Peer) : list Peer :=
  match ps with
  | [] => []
  | [p] => [f p]
  | p :: ps' => p :: updateLast f ps'
  end.

(** Modelled from the spec: the text of a comment line [# <name>], a
    line that starts with [#]. *)
Definition commentText (line : string) : option string :=
  match line with
  | String a text => if Ascii.eqb a "#" then Some (TrimSpace text) else None
  | "" => None
  end.

(** Modelled from the spec: a key/value line, handled according to the
    section (wireguard.go is not among the sources). In a peer
    section the line fills the last peer of the list; the first key line
    of a peer takes the peer's name from the look-back slot. *)
Definition assign (st : Parser) (key value : string) : Parser :=
  match section st with
  | Unset =>
      {| config := config st; section := Unset; fresh := fresh st;
         lookback := None |}
  | InInterface =>
      {| config := setInterface key value (config st);
         section := InInterface; fresh := fresh st; lookback := None |}
  | InPeer =>
      let named p :=
        if fresh st then setName (default "" (lookback st)) p else p in
      {| config :=
           set_peers
             (updateLast (λ p, setPeer key value (named p))
                (peers (config st)))
             (config st);
         section := InPeer; fresh := false; lookback := None |}
  end.

(** Modelled from the spec: one line of [Load]'s parse (wireguard.go is
    not among the sources). A section marker switches the section
    ([[Peer]] also appends an empty peer); a comment fills the look-back
    slot with its text; a blank line is skipped; any other line is a
    key/value line. Every line but a comment empties the slot, so that a
    name reaches a peer only from the line directly before the peer's
    first key line. *)
Definition parseLine (st : Parser) (line : string) : Parser :=
  if String.eqb line "[Interface]" then
    {| config := config st; section := InInterface; fresh := false;
       lookback := None |}
  else if String.eqb line "[Peer]" then
    {| config := set_peers (peers (config st) ++ [emptyPeer]) (config st);
       section := InPeer; fresh := true; lookback := None |}
  else
    match commentText line with
    | Some text =>
        {| config := config st; section := section st; fresh := fresh st;
           lookback := Some text |}
    | None =>
        if String.eqb (TrimSpace line) "" then
          {| config := config st; section := section st; fresh := fresh st;
             lookback := None |}
        else assign st (extractKey line) (extractValue line)
    end.

(** Modelled from the spec: the parse of a whole file, line by line; the
    peer list is rebuilt from nothing. *)
Definition parse (c : Config) (text : string) : Config :=
  config
    (fold_left parseLine (Split "010" text)
       {| config := set_peers [] c; section := Unset; fresh := false;
          lookback := None |}).

(** Modelled from the spec: [Load] (wireguard.go is not among the
    sources). It reads the file at the configuration's path through the
    [FileSystem] contract. A failed read is handed to the caller as it is,
    with the configuration untouched; otherwise the text is parsed. *)
Definition Load {S} `{System.FileSystem S} (c : Config)
  : M S (error * Config) :=
  '(data, err) ← System.fs_ReadFile (path c);
  if is_nil err then mret (nil_error, parse c (string_of_bytes data))
  else mret (err, c).

Definition GetPeers (c : Config) : list Peer := peers c.

Definition GetAddress (c : Config) : string := address c.

(** Modelled from the spec: the bare address of an [AllowedIPs] entry,
    its [/32] or other suffix stripped: the text before the
    first [/], or all of it when there is none. *)
Definition hostPart (allowed : string) : string :=
  match Cut "/" allowed with
  | Some (host, _) => host
  | None => allowed
  end.

(** Modelled from the spec: [GetPeerByIP] (wireguard.go is not among the
    sources). A scan of the peers in file order for the first one whose
    [AllowedIPs], stripped of its suffix, is the address asked for; [None]
    is the nil pointer. *)
Definition GetPeerByIP (c : Config) (ip : string) : option Peer :=
  List.find (λ p, String.eqb (hostPart (AllowedIPs p)) ip) (peers c).

(** *** Address allocation *)

(** A decimal numeral. *)
Fixpoint digits (acc : Z) (s : string) : option Z :=
  match s with
  | "" => Some acc
  | String a s' =>
      match Ascii.is_nat a with
      | Some d => digits (acc * 10 + Z.of_nat d) s'
      | None => None
      end
  end.

Definition Atoi (s : string) : option Z :=
  match s with
  | "" => None
  | _ => digits 0 s
  end.

(** One field of a dotted quad, as Go's [netip] reads it: decimal digits,
    at least one, no leading zero on a number of two or more digits, and
    no value above 255. *)
Definition parseOctet (s : string) : option Z :=
  match s with
  | String "0" (String _ _) => None
  | _ =>
      match Atoi s with
      | Some n => if n <=? 255 then Some n else None
      | None => None
      end
  end.

(** A dotted quad as a 32-bit number. *)
Definition parseIPv4 (s : string) : option Z :=
  match Split "." s with
  | [a; b; c; d] =>
      match parseOctet a, parseOctet b, parseOctet c, parseOctet d with
      | Some a, Some b, Some c, Some d =>
          Some (Z.lor (Z.shiftl a 24)
                  (Z.lor (Z.shiftl b 16) (Z.lor (Z.shiftl c 8) d)))
      | _, _, _, _ => None
      end
  | _ => None
  end.

(** The network mask of a prefix length. *)
Definition mask (bits : Z) : Z := Z.shiftl (Z.ones bits) (32 - bits).

(** [net.ParseCIDR], as far as IPv4 goes: the network address (the
    address with the host bits cleared) and the prefix length. *)
Definition ParseCIDR (cidr : string) : option (Z * Z) :=
  match Cut "/" cidr with
  | Some (ip, bits) =>
      match parseIPv4 ip, Atoi bits with
      | Some a, Some n =>
          if n <=? 32 then Some (Z.land a (mask n), n) else None
      | _, _ => None
      end
  | None => None
  end.

Definition octet (a : Z) (i : Z) : Z := Z.land (Z.shiftr a (8 * i)) 255.

(** The dotted quad of a 32-bit number. *)
Definition ipString (a : Z) : string :=
  pretty (octet a 3) +:+ "." +:+ pretty (octet a 2) +:+ "."
    +:+ pretty (octet a 1) +:+ "." +:+ pretty (octet a 0).

(** Modelled from the spec: the skip set of [GetNextIP] (wireguard.go is
    not among the sources; the specification leaves the choice to the
    implementation and asks for it to be written down). The skip set is
    the one the specification lists: the network address and the first
    host address (the gateway). These are the addresses a block of the
    given prefix length offers to peers, in ascending order: from the
    second address after the network address to the last address of the
    block, which is offered like any other. Blocks of one or two addresses
    offer none. *)
Definition candidates (network bits : Z) : list Z :=
  seqZ (network + 2) (2 ^ (32 - bits) - 2).

(** Modelled from the spec: an address is taken when some peer's
    [AllowedIPs], stripped of its suffix, is its dotted quad. *)
Definition taken (c : Config) (a : Z) : bool :=
  match GetPeerByIP c (ipString a) with
  | Some _ => true
  | None => false
  end.

Definition ErrInvalidCIDR (cidr : string) : error :=
  new_error ("invalid CIDR address: " +:+ cidr).

Definition ErrExhausted : error := new_error "no available IPs in range".

(** Modelled from the spec: [GetNextIP] (wireguard.go is not among the
    sources; its tests are). The first address of the block, in ascending
    order, that is neither the network address, nor the gateway, nor
    taken by a peer, as a [/32]; an error when there is none. *)
Definition GetNextIP (c : Config) (cidr : string) : string * error :=
  match ParseCIDR cidr with
  | None => ("", ErrInvalidCIDR cidr)
  | Some (network, bits) =>
      match list_find (λ a, taken c a = false) (candidates network bits) with
      | Some (_, a) => (ipString a +:+ "/32", nil_error)
      | None => ("", ErrExhausted)
      end
  end.

(** The number of the address with the four octets, and its text: the
    words the statements about [GetNextIP] are written in. *)
Definition quad (o3 o2 o1 o0 : Z) : Z :=
  ((o3 * 256 + o2) * 256 + o1) * 256 + o0.

Definition dotted (o3 o2 o1 o0 : Z) : string :=
  pretty o3 +:+ "." +:+ pretty o2 +:+ "." +:+ pretty o1 +:+ "."
    +:+ pretty o0.

(** *** Public keys *)








(** *** Well-formed configuration files

    The words the statement about [Load] is written in: the kinds of
    lines, the value that lines give a key, and the name that the lines
    of a peer give it. *)

(** A section marker. *)
Definition isMarker (line : string) : bool :=
  String.eqb line "[Interface]" || String.eqb line "[Peer]".

(** A comment: a line that starts with [#]. *)
Definition isComment (line : string) : bool :=
  match line with
  | String a _ => Ascii.eqb a "#"
  | "" => false
  end.

(** A blank line: nothing but white space. *)
Definition isBlank (line : string) : bool := all_space line.

(** A key line: a line of none of these kinds. *)
Definition isKeyLine (line : string) : bool :=
  negb (isMarker line) && negb (isComment line) && negb (isBlank line).

(** The value that the lines give a key: the value of the last key line
    with that key, and the value at hand when there is none. *)
Definition setting (key : string) (dflt : string) (lines : list string)
  : string :=
  default dflt
    (last (map extractValue
             (List.filter
                (λ line, isKeyLine line && String.eqb (extractKey line) key)
                lines))).

(** The line directly before the first key line, where [prev] is the line
    before the first of the lines; [None] when no line is a key line. *)
Fixpoint beforeFirstKey (prev : string) (lines : list string)
  : option string :=
  match lines with
  | [] => None
  | line :: rest =>
      if isKeyLine line then Some prev else beforeFirstKey line rest
  end.

(** The name a line gives: the text after the [#] of a comment, without
    the white space around it, and the empty name for any other line. *)
Definition commentName (line : string) : string :=
  match line with
  | String a text => if Ascii.eqb a "#" then TrimSpace text else ""
  | "" => ""
  end.

(** The name that the lines after a [[Peer]] marker give the peer: that
    of the line directly before the first key line. *)
Definition nameOf (block : list string) : string :=
  match beforeFirstKey "[Peer]" block with
  | Some prev => commentName prev
  | None => ""
  end.

(** The peer that the lines after a [[Peer]] marker describe. *)
Definition peerOf (block : list string) : Peer :=
  {| Name := nameOf block;
     PublicKey := setting "PublicKey" "" block;
     AllowedIPs := setting "AllowedIPs" "" block |}.

(** The lines of a file with its sections: what comes before the
    [[Interface]] marker, the lines of the [Interface] section, and the
    lines of each peer. *)
Definition fileLines (preamble body : list string)
    (blocks : list (list string)) : list string :=
  preamble ++ "[Interface]" :: body ++ concat (map (cons "[Peer]") blocks).

(** The text of a file with the given lines. *)
Definition fileText (lines : list string) : string :=
  Join (String "010" "") lines.

(** The file [TestLoad] writes, by sections. *)
Definition testLoadInterface : list string :=
  ["PrivateKey = cGFzc3dvcmQ=";
   "Address = 10.100.0.1/24";
   "ListenPort = 51820";
   "PostUp = iptables -A FORWARD -i %i -j ACCEPT";
   "PostDown = iptables -D FORWARD -i %i -j ACCEPT";
   ""].

Definition testLoadPeers : list (list string) :=
  [["# alice"; "PublicKey = YWxpY2VrZXk="; "AllowedIPs = 10.100.0.2/32"; ""];
   ["# bob"; "PublicKey = Ym9ia2V5"; "AllowedIPs = 10.100.0.3/32"; ""]].

(** The file [TestGetPeerByIP] writes: no [ListenPort] line. *)
Definition testGetPeerByIPLines : list string :=
  ["[Interface]";
   "PrivateKey = cGFzc3dvcmQ=";
   "Address = 10.100.0.1/24";
   "";
   "[Peer]";
   "# alice";
   "PublicKey = YWxpY2VrZXk=";
   "AllowedIPs = 10.100.0.2/32";
   "";
   "[Peer]";
   "# bob";
   "PublicKey = Ym9ia2V5";
   "AllowedIPs = 10.100.0.3/32";
   ""].

(** The file [TestGetNextIP] writes: peers without names. *)
Definition testGetNextIPLines : list string :=
  ["[Interface]";
   "PrivateKey = cGFzc3dvcmQ=";
   "Address = 10.100.0.1/24";
   "";
   "[Peer]";
   "PublicKey = YWxpY2VrZXk=";
   "AllowedIPs = 10.100.0.2/32";
   "";
   "[Peer]";
   "PublicKey = Ym9ia2V5";
   "AllowedIPs = 10.100.0.3/32";
   ""].

(** A file with comments and keys in other places: a comment before the
    first section, a peer key in the [Interface] section, a comment before
    a [[Peer]] marker, two comments before a first key line, a comment
    with a blank line after it, a comment after the first key line, an
    interface key in a peer, a key that is not recognised, and a key given
    twice. *)
Definition strayLines : list string :=
  ["# gateway";
   "Address = 10.9.9.9/24";
   "[Interface]";
   "# the server";
   "PrivateKey=cGFzc3dvcmQ=";
   "PublicKey = not-a-peer";
   "Address = 10.100.0.1/24";
   "# carol";
   "[Peer]";
   "# old name";
   "#alice  ";
   "PublicKey = YWxpY2VrZXk=";
   "# not alice";
   "Address = 10.0.0.9/24";
   "AllowedIPs = 10.100.0.2/32";
   "[Peer]";
   "# bob";
   "";
   "Endpoint = example.com:51820";
   "PublicKey = first";
   "PublicKey = Ym9ia2V5";
   "AllowedIPs = 10.100.0.3/32"].

(** The configuration [TestLoad] writes and expects back. *)
Definition testConfig : Config :=
  {| path := "/tmp/wg0.conf"; iface := "wg0";
     privateKey := "cGFzc3dvcmQ="; address := "10.100.0.1/24";
     listenPort := "51820";
     postUp := "iptables -A FORWARD -i %i -j ACCEPT";
     postDown := "iptables -D FORWARD -i %i -j ACCEPT";
     peers :=
       [{| Name := "alice"; PublicKey := "YWxpY2VrZXk=";
           AllowedIPs := "10.100.0.2/32" |};
        {| Name := "bob"; PublicKey := "Ym9ia2V5";
           AllowedIPs := "10.100.0.3/32" |}] |}.

(** A dry-run file system that holds the text of that configuration at
    its path. *)
Definition testFiles : System.DryRunFileSystem :=
  System.store_files "/tmp/wg0.conf"
    (bytes_of_string (fileText (fileLines [] testLoadInterface testLoadPeers)))
    System.NewDryRunFileSystem.

(** The configuration of [TestGetNextIP]: two peers without names. *)
Definition twoPeers : Config :=
  {| path := "/tmp/wg0.conf"; iface := "wg0";
     privateKey := "cGFzc3dvcmQ="; address := "10.100.0.1/24";
     listenPort := ""; postUp := ""; postDown := "";
     peers :=
       [{| Name := ""; PublicKey := "YWxpY2VrZXk=";
           AllowedIPs := "10.100.0.2/32" |};
        {| Name := ""; PublicKey := "Ym9ia2V5";
           AllowedIPs := "10.100.0.3/32" |}] |}.

(** The configuration of [TestGetNextIPEmpty]: no peers. *)
Definition noPeers : Config :=
  {| path := "/tmp/wg0.conf"; iface := "wg0";
     privateKey := "cGFzc3dvcmQ="; address := "10.100.0.1/24";
     listenPort := ""; postUp := ""; postDown := ""; peers := [] |}.

End WireGuard.

(** ** More of [internal/system/interfaces.go]: the log queries of the
    runner, and programs over all the methods *)

Module Queries.
Import System System.Runner.

(** [strings.Contains(s, substr)]: [substr] starts at some position of
    [s]. *)
Fixpoint Contains (s substr : string) : bool :=
  String.prefix substr s ||
  match s with
  | "" => false
  | String _ s' => Contains s' substr
  end.

(** A 64-bit signed [int] computation wraps around. *)
Definition wrap64 (z : Z) : Z := (z + 2 ^ 63) `mod` 2 ^ 64 - 2 ^ 63.

(** [s[low:]]: the bounds check of the runtime aborts the program when
    [low] is negative or beyond the length. *)
Definition slice_from {A} (low : Z) (s : list A) : option (list A) :=
  if (0 <=? low) && (low <=? Z.of_nat (length s))
  then Some (drop (Z.to_nat low) s)
  else None.

(** [GetLastCommands(count int)] *)
Definition GetLastCommands (count : Z)
  : M DryRunCommandRunner (list string) :=
  locked (
    r ← get;
    if Z.of_nat (length (ran r)) <=? count then mret (ran r)
    else eval (slice_from (wrap64 (Z.of_nat (length (ran r)) - count))
                 (ran r))).

(** [GetCommandsByType(cmdType string)]: [result] starts as the nil slice
    ([None]) and stays nil when no command is appended. *)
Definition GetCommandsByType (cmdType : string)
  : M DryRunCommandRunner (option (list string)) :=
  locked (
    r ← get;
    mret (fold_left
            (λ result cmd,
               if String.eqb cmdType "" || Contains cmd cmdType
               then Some (default [] result ++ [cmd])
               else result)
            (ran r) None)).

(** A call of a method of the dry-run runner that keeps the log: any
    method but [Clear] and [GetLastCommands]. *)
Inductive Command : Type :=
| CmdRun (ctx : Context) (name : string) (args : list string)
| CmdOutput (ctx : Context) (name : string) (args : list string)
| CmdCombinedOutput (ctx : Context) (name : string) (args : list string)
| CmdStart (ctx : Context) (name : string) (args : list string)
| CmdLookPath (file : string)
| CmdAddOutput (command : string) (out : bytes)
| CmdAddError (command : string) (err : error)
| CmdGetRunCommands
| CmdGetCommandsByType (cmdType : string).

(** What a call returns. *)
Inductive Answer : Type :=
| AnsError (err : error)
| AnsOutput (out : bytes) (err : error)
| AnsProcess (p : option ProcessValue) (err : error)
| AnsPath (p : string) (err : error)
| AnsNothing
| AnsCommands (cmds : option (list string)).

Definition command (c : Command) : M DryRunCommandRunner Answer :=
  match c with
  | CmdRun ctx name args => e ← Run ctx name args; mret (AnsError e)
  | CmdOutput ctx name args =>
      '(o, e) ← Output ctx name args; mret (AnsOutput o e)
  | CmdCombinedOutput ctx name args =>
      '(o, e) ← CombinedOutput ctx name args; mret (AnsOutput o e)
  | CmdStart ctx name args =>
      '(p, e) ← Start ctx name args; mret (AnsProcess p e)
  | CmdLookPath file => '(p, e) ← LookPath file; mret (AnsPath p e)
  | CmdAddOutput c out => AddOutput c out;; mret AnsNothing
  | CmdAddError c err => AddError c err;; mret AnsNothing
  | CmdGetRunCommands => l ← GetRunCommands; mret (AnsCommands (Some l))
  | CmdGetCommandsByType t => l ← GetCommandsByType t; mret (AnsCommands l)
  end.

Fixpoint commands (cs : list Command)
  : M DryRunCommandRunner (list Answer) :=
  match cs with
  | [] => mret []
  | c :: cs' => a ← command c; as' ← commands cs'; mret (a :: as')
  end.

(** The line a call appends to the log, if it appends one. *)
Definition logged (c : Command) : option string :=
  match c with
  | CmdRun _ name args | CmdOutput _ name args
  | CmdCombinedOutput _ name args | CmdStart _ name args =>
      Some (String.concat " " (name :: args))
  | CmdLookPath file => Some ("lookpath: " +:+ file)
  | _ => None
  end.

(** The canned errors and outputs after some calls: only [AddError] and
    [AddOutput] change them. *)
Definition canned_errors (cs : list Command) (m : gmap string error)
  : gmap string error :=
  fold_left (λ m c, match c with
                    | CmdAddError k e => <[k:=e]> m
                    | _ => m
                    end) cs m.

Definition canned_outputs (cs : list Command) (m : gmap string bytes)
  : gmap string bytes :=
  fold_left (λ m c, match c with
                    | CmdAddOutput k o => <[k:=o]> m
                    | _ => m
                    end) cs m.

(** A call of a method of the dry-run file system, any of them. *)
Inductive Op : Type :=
| OpReadFile (p : string)
| OpWriteFile (p : string) (data : bytes) (perm : FileMode)
| OpStat (p : string)
| OpExists (p : string)
| OpRemove (p : string)
| OpMkdirAll (p : string) (perm : FileMode)
| OpAddFile (p : string) (data : bytes)
| OpGetWrittenFiles
| OpGetCreatedFiles
| OpGetRemovedFiles
| OpGetCreatedDirs.

Inductive Value : Type :=
| ValBytes (data : bytes) (err : error)
| ValError (err : error)
| ValInfo (fi : option FileInfo) (err : error)
| ValBool (b : bool)
| ValNothing
| ValFiles (m : gmap string bytes)
| ValFlags (m : gmap string bool).

Section Programs.
Context {Host : Type} `{OperatingSystem Host}.

Definition op (o : Op) : M (@DryRun Host) Value :=
  match o with
  | OpReadFile p => '(d, e) ← ReadFile p; mret (ValBytes d e)
  | OpWriteFile p data perm => e ← WriteFile p data perm; mret (ValError e)
  | OpStat p => '(fi, e) ← Stat p; mret (ValInfo fi e)
  | OpExists p => b ← Exists p; mret (ValBool b)
  | OpRemove p => e ← Remove p; mret (ValError e)
  | OpMkdirAll p perm => e ← MkdirAll p perm; mret (ValError e)
  | OpAddFile p data => AddFile p data;; mret ValNothing
  | OpGetWrittenFiles => m ← GetWrittenFiles; mret (ValFiles m)
  | OpGetCreatedFiles => m ← GetCreatedFiles; mret (ValFlags m)
  | OpGetRemovedFiles => m ← GetRemovedFiles; mret (ValFlags m)
  | OpGetCreatedDirs => m ← GetCreatedDirs; mret (ValFlags m)
  end.

Fixpoint ops (os : list Op) : M (@DryRun Host) (list Value) :=
  match os with
  | [] => mret []
  | o :: os' => v ← op o; vs ← ops os'; mret (v :: vs)
  end.

End Programs.

(** A runner with a log of four lines, for examples. *)
Definition busy_runner : DryRunCommandRunner :=
  {| mu := Unlocked;
     ran := ["wg show wg0"; "systemctl reload haproxy"; "wg show wg1";
             "lookpath: wg"];
     output := ∅; errors := ∅ |}.

End Queries.

(** ** Package [acme]: [internal/acme/provider.go] *)

Module Acme.
Import Strings.

(** [time.Duration], a number of nanoseconds. *)
Definition Duration : Type := Z.
Definition Millisecond : Duration := 1000000.
Definition Second : Duration := 1000 * Millisecond.
Definition Minute : Duration := 60 * Second.

(** The process and what is around it: the environment variables, and the
    rest (the clock, the DNS services, the terminal). *)
Record World (R : Type) : Type := {
  environ : gmap string string;
  outside : R
}.
Arguments environ {R} _.
Arguments outside {R} _.

(** What the program takes from its libraries: the lego DNS providers with
    their constructors, and the [time] package. A provider that has no
    [Timeout] method answers [None]. A call into a library is taken to
    return. *)
Class Lego (R Provider : Type) := {
  provider_Present :
    Provider → string → string → string → World R → error * World R;
  provider_CleanUp :
    Provider → string → string → string → World R → error * World R;
  provider_Timeout : Provider → option (Duration * Duration);
  route53_NewDNSProvider : World R → Provider * error;
  namedotcom_NewDNSProvider : World R → Provider * error;
  cloudflare_NewDNSProvider : World R → Provider * error;
  time_Now : World R → Z;
  time_Since : Z → World R → Duration;
  Duration_Round : Duration → Duration → Duration;
  Duration_String : Duration → string
}.

(** [DNSProviderType] and its constants. *)
Definition DNSProviderRoute53 : string := "route53".
Definition DNSProviderNamecom : string := "namecom".
Definition DNSProviderCloudflare : string := "cloudflare".

(** [DNSProviderConfig]; its field [Type] is [ProviderType] here. *)
Record DNSProviderConfig : Type := {
  ProviderType : string;
  AWSAccessKeyID : string;
  AWSSecretAccessKey : string;
  AWSRegion : string;
  AWSHostedZoneID : string;
  AWSProfile : string;
  NamecomUsername : string;
  NamecomAPIToken : string;
  CloudflareAPIToken : string;
  CloudflareZoneID : string
}.

(** [err.Error()], as [%v] prints an error. *)
Definition Error (e : error) : string :=
  match e with
  | new_error msg => msg
  | nil_error => "<nil>"
  end.

(** [fmt.Errorf(prefix + ": %w", err)], as far as its message goes. *)
Definition Errorf (prefix : string) (err : error) : error :=
  new_error (prefix +:+ ": " +:+ Error err).

Section Providers.
Context {R Provider : Type} `{Lego R Provider}.

(** A [func(string)] value that is not nil: what a call does to the
    world. *)
Definition LogFn : Type := string → World R → World R.

(** A [challenge.Provider] interface value: nil, a provider of the lego
    library, or a [LoggingProvider] with its two fields, either of which
    may be nil. *)
Inductive ChallengeProvider : Type :=
| NoProvider
| External (x : Provider)
| LoggingProvider (provider : ChallengeProvider) (logFn : option LogFn).

(** [p.logFn(msg)]: calling a nil function aborts the program. *)
Definition call (logFn : option LogFn) (msg : string) : M (World R) unit :=
  match logFn with
  | Some f => modify (f msg)
  | None => abort
  end.

(** A library call: it returns its result and the world it leaves. *)
Definition extern {A} (f : World R → A * World R) : M (World R) A :=
  λ w, Some (f w).

(** [time.Since(start).Round(time.Millisecond)] *)
Definition elapsed (start : Z) : M (World R) Duration :=
  w ← get; mret (Duration_Round (time_Since start w) Millisecond).

(** [Present], on any [challenge.Provider]: the method of the library for
    its providers, the method of [LoggingProvider] for a wrapped one. A
    method call on the nil interface aborts the program. *)
Fixpoint Present (p : ChallengeProvider) (domain token keyAuth : string)
  : M (World R) error :=
  match p with
  | NoProvider => abort
  | External x => extern (provider_Present x domain token keyAuth)
  | LoggingProvider provider logFn =>
      let fqdn := "_acme-challenge." +:+ domain in
      call logFn ("  Creating DNS TXT record: " +:+ fqdn);;
      w ← get;
      let start := time_Now w in
      err ← Present provider domain token keyAuth;
      duration ← elapsed start;
      if is_nil err then
        call logFn ("  ✓ DNS record created (" +:+ Duration_String duration
                    +:+ ")");;
        call logFn
          "  Waiting for DNS propagation (this may take 30-120 seconds)...";;
        mret nil_error
      else
        call logFn ("  ✗ Failed to create DNS record ("
                    +:+ Duration_String duration +:+ "): " +:+ Error err);;
        mret err
  end.

(** [CleanUp] *)
Fixpoint CleanUp (p : ChallengeProvider) (domain token keyAuth : string)
  : M (World R) error :=
  match p with
  | NoProvider => abort
  | External x => extern (provider_CleanUp x domain token keyAuth)
  | LoggingProvider provider logFn =>
      let fqdn := "_acme-challenge." +:+ domain in
      call logFn ("  Cleaning up DNS TXT record: " +:+ fqdn);;
      w ← get;
      let start := time_Now w in
      err ← CleanUp provider domain token keyAuth;
      duration ← elapsed start;
      if is_nil err then
        call logFn ("  ✓ DNS record cleaned up ("
                    +:+ Duration_String duration +:+ ")");;
        mret nil_error
      else
        call logFn ("  ⚠ Failed to clean up DNS record ("
                    +:+ Duration_String duration +:+ "): " +:+ Error err);;
        mret err
  end.

(** [Timeout], where the provider has the method ([None] where it has
    not): the type assertion of [LoggingProvider.Timeout] succeeds on an
    inner provider that has the method and fails on one that has not, also
    on the nil interface. *)
Fixpoint Timeout (p : ChallengeProvider) : option (Duration * Duration) :=
  match p with
  | NoProvider => None
  | External x => provider_Timeout x
  | LoggingProvider provider _ =>
      match Timeout provider with
      | Some t => Some t
      | None => Some (2 * Minute, 5 * Second)
      end
  end.

(** [wrapWithLogging] *)
Definition wrapWithLogging (provider : ChallengeProvider)
    (logFn : option LogFn) : ChallengeProvider :=
  match logFn with
  | None => provider
  | Some f => LoggingProvider provider (Some f)
  end.

(** [syscall.Setenv]: an empty key, a key with [=] or a NUL byte in it, and
    a value with a NUL byte in it are refused. *)
Definition Setenv (key value : string) : M (World R) error :=
  λ w,
    if String.eqb key "" || occurs "=" key || occurs "000" key
       || occurs "000" value
    then Some (new_error "setenv: invalid argument", w)
    else Some (nil_error,
               {| environ := <[key:=value]> (environ w);
                  outside := outside w |}).

(** A value that [export_if] puts into the environment when asked to: the
    switch is not empty and the value has no NUL byte. *)
Definition exportable (switch value : string) : bool :=
  negb (String.eqb switch "") && negb (occurs "000" value).

(** [if value != "" { os.Setenv(key, value) }]; the error is dropped. *)
Definition export_if (switch : string) (key value : string)
  : M (World R) unit :=
  if String.eqb switch "" then mret tt else (Setenv key value;; mret tt).

(** The end of the three constructors: the library's provider, or its
    error under a prefix. *)
Definition created (prefix : string) (new : World R → Provider * error)
  : M (World R) (ChallengeProvider * error) :=
  w ← get;
  let '(provider, err) := new w in
  if is_nil err then mret (External provider, nil_error)
  else mret (NoProvider, Errorf prefix err).

Definition createRoute53Provider (cfg : DNSProviderConfig)
  : M (World R) (ChallengeProvider * error) :=
  export_if (AWSAccessKeyID cfg) "AWS_ACCESS_KEY_ID" (AWSAccessKeyID cfg);;
  export_if (AWSSecretAccessKey cfg) "AWS_SECRET_ACCESS_KEY"
    (AWSSecretAccessKey cfg);;
  export_if (AWSRegion cfg) "AWS_REGION" (AWSRegion cfg);;
  export_if (AWSHostedZoneID cfg) "AWS_HOSTED_ZONE_ID" (AWSHostedZoneID cfg);;
  export_if (AWSProfile cfg) "AWS_PROFILE" (AWSProfile cfg);;
  created "failed to create route53 provider" route53_NewDNSProvider.

Definition createNamecomProvider (cfg : DNSProviderConfig)
  : M (World R) (ChallengeProvider * error) :=
  export_if (NamecomUsername cfg) "NAMECOM_USERNAME" (NamecomUsername cfg);;
  export_if (NamecomAPIToken cfg) "NAMECOM_API_TOKEN" (NamecomAPIToken cfg);;
  created "failed to create namecom provider" namedotcom_NewDNSProvider.

Definition createCloudflareProvider (cfg : DNSProviderConfig)
  : M (World R) (ChallengeProvider * error) :=
  export_if (CloudflareAPIToken cfg) "CF_DNS_API_TOKEN"
    (CloudflareAPIToken cfg);;
  export_if (CloudflareZoneID cfg) "CF_ZONE_API_TOKEN"
    (CloudflareAPIToken cfg);;
  created "failed to create cloudflare provider" cloudflare_NewDNSProvider.

(** The environment variables the constructors fill, each with the field
    of the configuration that decides whether it is set and the field whose
    value it gets. *)
Definition route53_variables (cfg : DNSProviderConfig)
  : list (string * (string * string)) :=
  [("AWS_ACCESS_KEY_ID", (AWSAccessKeyID cfg, AWSAccessKeyID cfg));
   ("AWS_SECRET_ACCESS_KEY", (AWSSecretAccessKey cfg, AWSSecretAccessKey cfg));
   ("AWS_REGION", (AWSRegion cfg, AWSRegion cfg));
   ("AWS_HOSTED_ZONE_ID", (AWSHostedZoneID cfg, AWSHostedZoneID cfg));
   ("AWS_PROFILE", (AWSProfile cfg, AWSProfile cfg))].

Definition namecom_variables (cfg : DNSProviderConfig)
  : list (string * (string * string)) :=
  [("NAMECOM_USERNAME", (NamecomUsername cfg, NamecomUsername cfg));
   ("NAMECOM_API_TOKEN", (NamecomAPIToken cfg, NamecomAPIToken cfg))].

Definition cloudflare_variables (cfg : DNSProviderConfig)
  : list (string * (string * string)) :=
  [("CF_DNS_API_TOKEN", (CloudflareAPIToken cfg, CloudflareAPIToken cfg));
   ("CF_ZONE_API_TOKEN", (CloudflareZoneID cfg, CloudflareAPIToken cfg))].

(** The variables of the constructor that the type of the configuration
    selects; an unknown type selects no constructor. *)
Definition variables (cfg : DNSProviderConfig)
  : list (string * (string * string)) :=
  if String.eqb (ProviderType cfg) DNSProviderRoute53
  then route53_variables cfg
  else if String.eqb (ProviderType cfg) DNSProviderNamecom
  then namecom_variables cfg
  else if String.eqb (ProviderType cfg) DNSProviderCloudflare
  then cloudflare_variables cfg
  else [].

(** What a variable holds after the constructor ran, given what it held
    before. *)
Definition exported (variables : list (string * (string * string)))
    (key : string) (before : option string) : option string :=
  match (list_to_map variables : gmap string (string * string)) !! key with
  | Some (switch, value) =>
      if exportable switch value then Some value else before
  | None => before
  end.

(** [CreateChallengeProvider]; a nil [cfg] is [None]. *)
Definition CreateChallengeProvider (cfg : option DNSProviderConfig)
    (logFn : option LogFn)
  : M (World R) (ChallengeProvider * error) :=
  match cfg with
  | None => mret (NoProvider, new_error "dns provider config is nil")
  | Some cfg =>
      let continue (create : M (World R) (ChallengeProvider * error)) :=
        '(provider, err) ← create;
        if is_nil err then mret (wrapWithLogging provider logFn, nil_error)
        else mret (NoProvider, err) in
      if String.eqb (ProviderType cfg) DNSProviderRoute53
      then continue (createRoute53Provider cfg)
      else if String.eqb (ProviderType cfg) DNSProviderNamecom
      then continue (createNamecomProvider cfg)
      else if String.eqb (ProviderType cfg) DNSProviderCloudflare
      then continue (createCloudflareProvider cfg)
      else mret (NoProvider,
                 new_error ("unknown dns provider type for ACME: "
                            +:+ ProviderType cfg))
  end.

End Providers.

(** [ProviderName] *)
Definition ProviderName (cfg : option DNSProviderConfig) : string :=
  match cfg with
  | None => "unknown"
  | Some cfg => ProviderType cfg
  end.

(** *** A small world for running examples: the rest of the world is the
    lines printed so far, a provider is its name, and the constructors ask
    for the variable their service needs. *)
Definition needs (key what : string) (name : string)
    (w : World (list string)) : string * error :=
  match environ w !! key with
  | Some _ => (name, nil_error)
  | None => (name, new_error (what +:+ ": some credentials information are missing: " +:+ key))
  end.

Global Instance Toy : Lego (list string) string := {
  provider_Present x domain token keyAuth w :=
    (if String.eqb domain "" then new_error "empty domain" else nil_error, w);
  provider_CleanUp x domain token keyAuth w := (nil_error, w);
  provider_Timeout x :=
    if String.eqb x "route53" then Some (4 * Minute, 4 * Second) else None;
  route53_NewDNSProvider := needs "AWS_REGION" "route53" "route53";
  namedotcom_NewDNSProvider := needs "NAMECOM_USERNAME" "namedotcom" "namecom";
  cloudflare_NewDNSProvider :=
    needs "CF_DNS_API_TOKEN" "cloudflare" "cloudflare";
  time_Now w := 0;
  time_Since start w := 0;
  Duration_Round d m := d;
  Duration_String d := "0s"
}.

(** Printing: a log function that appends the line to the lines printed. *)
Definition print : string → World (list string) → World (list string) :=
  λ msg w, {| environ := environ w; outside := outside w ++ [msg] |}.

Definition quiet : World (list string) :=
  {| environ := ∅; outside := [] |}.

Definition awsConfig : DNSProviderConfig :=
  {| ProviderType := "route53";
     AWSAccessKeyID := "AKIAEXAMPLE"; AWSSecretAccessKey := "secret";
     AWSRegion := "eu-west-1"; AWSHostedZoneID := ""; AWSProfile := "";
     NamecomUsername := ""; NamecomAPIToken := "";
     CloudflareAPIToken := ""; CloudflareZoneID := "" |}.

Definition cloudflareConfig (zone : string) : DNSProviderConfig :=
  {| ProviderType := "cloudflare";
     AWSAccessKeyID := ""; AWSSecretAccessKey := "";
     AWSRegion := ""; AWSHostedZoneID := ""; AWSProfile := "";
     NamecomUsername := ""; NamecomAPIToken := "";
     CloudflareAPIToken := "cf-token"; CloudflareZoneID := zone |}.

End Acme.

(** * Properties *)

(** ** The mutex discipline *)

Section Locking.
Context {S : Type} `{Locker S}.

Lemma locked_free {A} (body : M S A) (s : S) :
  mutex s = Unlocked →
  locked body s =
    match body (set_mutex Locked s) with
    | Some (a, s') => bind Unlock (λ _, ret a) s'
    | None => None
    end.
Proof. intros Hs. unfold locked, bind at 1 2, Lock. by rewrite Hs. Qed.

(** A method that finds the mutex held never returns. *)
Lemma locked_held {A} (body : M S A) (s : S) :
  mutex s = Locked → locked body s = None.
Proof. intros Hs. unfold locked, bind at 1, Lock. by rewrite Hs. Qed.

End Locking.

(** ** Strings *)

Module StringFacts.
Import Strings.

Implicit Types (s t : string) (a c : ascii).

Lemma append_nil s : "" +:+ s = s.
Proof. reflexivity. Qed.

Lemma append_cons a s t : String a s +:+ t = String a (s +:+ t).
Proof. reflexivity. Qed.

Lemma append_nil_r s : s +:+ "" = s.
Proof. induction s as [|a s IH]; [done|]. by rewrite append_cons, IH. Qed.

Lemma append_assoc s t (u : string) : (s +:+ t) +:+ u = s +:+ (t +:+ u).
Proof.
  induction s as [|x s IH]; [done|]. by rewrite !append_cons, IH.
Qed.

Lemma concat_cons_sep (sep s : string) (rest : list string) :
  rest ≠ [] →
  String.concat sep (s :: rest) = s +:+ sep +:+ String.concat sep rest.
Proof. by destruct rest. Qed.

Lemma occurs_app c s t : occurs c (s +:+ t) = occurs c s || occurs c t.
Proof.
  induction s as [|a s IH]; [done|].
  rewrite append_cons. simpl. rewrite IH. by destruct (Ascii.eqb a c).
Qed.

Lemma all_space_app s t :
  all_space (s +:+ t) = all_space s && all_space t.
Proof.
  induction s as [|a s IH]; [done|].
  rewrite append_cons. simpl. rewrite IH. by destruct (is_space a).
Qed.

(** *** [Cut] *)

Lemma Cut_app c s t :
  occurs c s = false → Cut c (s +:+ String c t) = Some (s, t).
Proof.
  induction s as [|a s IH]; intros Hs.
  - rewrite append_nil. simpl. by rewrite Ascii.eqb_refl.
  - rewrite append_cons. simpl in *.
    apply orb_false_iff in Hs as [Ha Hs]. by rewrite Ha, IH.
Qed.

Lemma Cut_None c s : occurs c s = false → Cut c s = None.
Proof.
  induction s as [|a s IH]; [done|]. simpl.
  intros [Ha Hs]%orb_false_iff. by rewrite Ha, IH.
Qed.

Lemma Cut_Some c s before after :
  Cut c s = Some (before, after) →
  s = before +:+ String c after ∧ occurs c before = false.
Proof.
  revert before. induction s as [|a s IH]; intros before; [done|]. simpl.
  destruct (Ascii.eqb a c) eqn:Ha.
  - apply Ascii.eqb_eq in Ha as ->. by intros [= <- <-].
  - destruct (Cut c s) as [[b' a']|]; [|done]. intros [= <- <-].
    destruct (IH b' eq_refl) as [-> Hb]. simpl. by rewrite Ha, Hb.
Qed.

Lemma Cut_occurs c s : occurs c s = true → is_Some (Cut c s).
Proof.
  induction s as [|a s IH]; [done|]. simpl.
  destruct (Ascii.eqb a c); [by eexists|]. simpl. intros Hs.
  destruct (IH Hs) as [[b' a'] ->]. by eexists.
Qed.

(** *** Trimming *)

Lemma TrimLeft_split s :
  ∃ l, s = l +:+ TrimLeft s ∧ all_space l = true
       ∧ solid (first_char (TrimLeft s)).
Proof.
  induction s as [|a s (l & Hl & Hsp & Hfirst)].
  - by exists "".
  - simpl. destruct (is_space a) eqn:Ha.
    + exists (String a l). rewrite append_cons, <- Hl. simpl.
      by rewrite Ha, Hsp.
    + exists "". by rewrite append_nil.
Qed.

Lemma TrimRight_split s :
  ∃ r, s = TrimRight s +:+ r ∧ all_space r = true
       ∧ solid (last_char (TrimRight s)).
Proof.
  induction s as [|a s (r & Hr & Hsp & Hlast)].
  - by exists "".
  - simpl. destruct (TrimRight s) as [|b t] eqn:Ht.
    + rewrite append_nil in Hr. subst r.
      destruct (is_space a) eqn:Ha.
      * exists (String a s). rewrite append_nil. simpl. by rewrite Ha, Hsp.
      * exists s. by rewrite append_cons, append_nil.
    + exists r. rewrite append_cons, <- Hr. done.
Qed.

(** [TrimRight] keeps the front of the string. *)
Lemma TrimRight_first s :
  TrimRight s ≠ "" → first_char (TrimRight s) = first_char s.
Proof.
  destruct s as [|a s]; [done|]. simpl.
  destruct (TrimRight s); [|done]. by destruct (is_space a).
Qed.

Lemma TrimSpace_split s :
  ∃ l r, s = l +:+ TrimSpace s +:+ r ∧
         all_space l = true ∧ all_space r = true ∧
         solid (first_char (TrimSpace s)) ∧
         solid (last_char (TrimSpace s)).
Proof.
  unfold TrimSpace.
  destruct (TrimLeft_split s) as (l & Hl & Hlsp & Hfirst).
  destruct (TrimRight_split (TrimLeft s)) as (r & Hr & Hrsp & Hlast).
  exists l, r. split; [by rewrite <- Hr|]. repeat split; try done.
  destruct (decide (TrimRight (TrimLeft s) = "")) as [->|Hne]; [done|].
  by rewrite TrimRight_first.
Qed.

Lemma TrimSpace_space_l a s :
  is_space a = true → TrimSpace (String a s) = TrimSpace s.
Proof. intros Ha. unfold TrimSpace. simpl. by rewrite Ha. Qed.

(** A line that starts with a character that is not white space is not
    blank. *)
Lemma TrimSpace_solid a s :
  is_space a = false → String.eqb (TrimSpace (String a s)) "" = false.
Proof.
  intros Ha. unfold TrimSpace. simpl. rewrite Ha. simpl.
  destruct (TrimRight s); [by rewrite Ha|done].
Qed.

(** *** [Split] and [Join] *)

Lemma Split_no_sep c s : occurs c s = false → Split c s = [s].
Proof.
  induction s as [|a s IH]; [done|]. simpl.
  intros [Ha Hs]%orb_false_iff. by rewrite Ha, IH.
Qed.

Lemma Split_app c s t :
  occurs c s = false → Split c (s +:+ String c t) = s :: Split c t.
Proof.
  induction s as [|a s IH].
  - intros _. rewrite append_nil. simpl. by rewrite Ascii.eqb_refl.
  - rewrite append_cons. simpl.
    intros [Ha Hs]%orb_false_iff. by rewrite Ha, IH.
Qed.

(** Splitting at the separator undoes joining, for words that do not
    hold the separator. *)
Lemma Split_Join c (ws : list string) :
  ws ≠ [] →
  Forall (λ w, occurs c w = false) ws →
  Split c (Join (String c "") ws) = ws.
Proof.
  induction ws as [|w ws IH]; [done|]. intros _ Hws.
  apply Forall_cons in Hws as [Hw Hws].
  destruct ws as [|w' ws].
  - by apply Split_no_sep.
  - unfold Join in *. rewrite concat_cons_sep by done.
    rewrite append_cons, append_nil, Split_app by done.
    by rewrite IH.
Qed.

End StringFacts.

(** Unfolding the monad's operations in a goal. *)
Ltac unfold_method :=
  unfold mbind, M_bind, mret, M_ret, bind, ret, get, modify, abort, Unlock;
  simpl.

Module SystemFacts.
Import System.

Lemma copy_map_id {V} (m : gmap string V) : copy_map m = m.
Proof.
  unfold copy_map.
  induction m as [|k v m Hk Hfold IH] using map_first_key_ind.
  - apply map_fold_empty.
  - rewrite map_fold_insert_first_key by done. by rewrite IH.
Qed.

Section DryRunFS.
Context {Host : Type} `{OperatingSystem Host}.
Implicit Types (h : Host) (fs : DryRunFileSystem) (p : string).

(** Running a method body between [Lock] and the deferred [Unlock]. *)
Ltac run_locked Hmu :=
  rewrite locked_free by exact Hmu;
  match goal with fs : DryRunFileSystem |- _ =>
    destruct fs; simpl in Hmu; subst; unfold_method;
    rewrite ?copy_map_id; reflexivity
  end.

Lemma WriteFile_run h fs p data perm :
  mu fs = Unlocked →
  WriteFile p data perm (h, fs) =
    Some (nil_error, (h, store_written p data fs)).
Proof. intros Hmu. unfold WriteFile. run_locked Hmu. Qed.

Lemma MkdirAll_run h fs p perm :
  mu fs = Unlocked →
  MkdirAll p perm (h, fs) = Some (nil_error, (h, store_mkdirs p fs)).
Proof. intros Hmu. unfold MkdirAll. run_locked Hmu. Qed.

Lemma Remove_run h fs p :
  mu fs = Unlocked →
  Remove p (h, fs) = Some (nil_error, (h, store_removed p fs)).
Proof. intros Hmu. unfold Remove. run_locked Hmu. Qed.

Lemma AddFile_run h fs p data :
  mu fs = Unlocked →
  AddFile p data (h, fs) = Some (tt, (h, store_files p data fs)).
Proof. intros Hmu. unfold AddFile. run_locked Hmu. Qed.

Lemma GetWrittenFiles_run h fs :
  mu fs = Unlocked →
  GetWrittenFiles (h, fs) = Some (written fs, (h, fs)).
Proof.
  intros Hmu. unfold GetWrittenFiles. run_locked Hmu.
Qed.

Lemma GetCreatedDirs_run h fs :
  mu fs = Unlocked →
  GetCreatedDirs (h, fs) = Some (mkdirs fs, (h, fs)).
Proof.
  intros Hmu. unfold GetCreatedDirs. run_locked Hmu.
Qed.

Lemma GetRemovedFiles_run h fs :
  mu fs = Unlocked →
  GetRemovedFiles (h, fs) = Some (removed fs, (h, fs)).
Proof.
  intros Hmu. unfold GetRemovedFiles. run_locked Hmu.
Qed.

(** One recording call: it returns nil, leaves the host alone, frees the
    mutex again and stores into exactly one map. *)
Lemma call_run h fs c :
  mu fs = Unlocked →
  ∃ fs', call c (h, fs) = Some (nil_error, (h, fs')) ∧
    mu fs' = Unlocked ∧
    fs' = match c with
          | CallWriteFile p data _ => store_written p data fs
          | CallMkdirAll p _ => store_mkdirs p fs
          | CallRemove p => store_removed p fs
          end.
Proof.
  intros Hmu. destruct c as [p data perm|p perm|p]; simpl.
  - eexists. by rewrite WriteFile_run.
  - eexists. by rewrite MkdirAll_run.
  - eexists. by rewrite Remove_run.
Qed.

(** A sequence of recording calls from any state whose mutex is free. *)
Lemma calls_run h cs : ∀ fs,
  mu fs = Unlocked →
  ∃ fs', calls cs (h, fs) = Some (replicate (length cs) nil_error, (h, fs')) ∧
    mu fs' = Unlocked ∧
    files fs' = files fs ∧
    created fs' = created fs ∧
    (∀ p, written fs' !! p =
          match last_written p cs with
          | Some data => Some data
          | None => written fs !! p
          end) ∧
    (∀ p, mkdirs fs' !! p =
          if decide (p ∈ mkdir_paths cs) then Some true
          else mkdirs fs !! p) ∧
    (∀ p, removed fs' !! p =
          if decide (p ∈ remove_paths cs) then Some true
          else removed fs !! p).
Proof.
  induction cs as [|c cs IH]; intros fs Hmu.
  - exists fs. repeat split; try done.
    all: intros p; by rewrite decide_False by apply not_elem_of_nil.
  - destruct (call_run h fs c Hmu) as (fs1 & Hc & Hmu1 & Hfs1).
    destruct (IH fs1 Hmu1) as (fs' & Hcs & Hmu' & Hf & Hcr & Hw & Hd & Hr).
    exists fs'. split.
    { cbn [calls]. unfold mbind, M_bind, bind at 1. rewrite Hc.
      unfold bind at 1. by rewrite Hcs. }
    split; [done|].
    rewrite Hf, Hcr.
    split; [by subst fs1; destruct c|].
    split; [by subst fs1; destruct c|].
    split; [|split]; intros p.
    + rewrite Hw. cbn [last_written].
      destruct (last_written p cs); [done|].
      subst fs1. destruct c as [q data perm|q perm|q]; simpl; try done.
      case_decide as Hq.
      * subst q. by rewrite lookup_insert_eq.
      * by rewrite lookup_insert_ne.
    + rewrite Hd. subst fs1.
      destruct c as [q data perm|q perm|q]; simpl; try done.
      unfold mkdir_paths; simpl. fold (mkdir_paths cs).
      destruct (decide (p = q)) as [->|Hq].
      * rewrite lookup_insert_eq.
        rewrite (decide_True (P := (q ∈ q :: _))) by apply list_elem_of_here.
        by case_decide.
      * rewrite lookup_insert_ne by done.
        destruct (decide (p ∈ mkdir_paths cs)) as [Hin|Hin].
        -- by rewrite decide_True by (by right).
        -- by rewrite decide_False by (by intros [?|?]%elem_of_cons).
    + rewrite Hr. subst fs1.
      destruct c as [q data perm|q perm|q]; simpl; try done.
      unfold remove_paths; simpl. fold (remove_paths cs).
      destruct (decide (p = q)) as [->|Hq].
      * rewrite lookup_insert_eq.
        rewrite (decide_True (P := (q ∈ q :: _))) by apply list_elem_of_here.
        by case_decide.
      * rewrite lookup_insert_ne by done.
        destruct (decide (p ∈ remove_paths cs)) as [Hin|Hin].
        -- by rewrite decide_True by (by right).
        -- by rewrite decide_False by (by intros [?|?]%elem_of_cons).
Qed.

(** What [last_written] finds was written, and what was written is found. *)
Lemma last_written_Some p cs data :
  last_written p cs = Some data → ∃ perm, CallWriteFile p data perm ∈ cs.
Proof.
  induction cs as [|c cs IH]; [done|]. cbn [last_written].
  destruct (last_written p cs) as [data'|].
  - intros [= ->]. destruct (IH eq_refl) as [perm Hin].
    exists perm. by right.
  - destruct c as [q data' perm|q perm|q]; try done.
    case_decide as Hq; [|done]. intros [= ->]. subst q.
    exists perm. by left.
Qed.

Lemma last_written_is_Some p cs data perm :
  CallWriteFile p data perm ∈ cs → is_Some (last_written p cs).
Proof.
  induction cs as [|c cs IH]; [by intros ?%not_elem_of_nil|].
  intros [<-|Hin]%elem_of_cons; cbn [last_written].
  - destruct (last_written p cs); [by eexists|].
    rewrite decide_True by done. by eexists.
  - destruct (IH Hin) as [data' ->]. by eexists.
Qed.

(** C1. Any sequence of [WriteFile], [MkdirAll] and [Remove] calls on a
    fresh dry-run file system: every call returns nil, the host file
    system is the one the sequence started with, and afterwards
    [GetWrittenFiles] holds the written pairs and nothing else: every pair
    in it was passed to a [WriteFile], every path passed to a [WriteFile]
    is in it, and the data under a path is that of the last [WriteFile] to
    the path. [GetCreatedDirs] and [GetRemovedFiles] hold exactly the paths
    passed to [MkdirAll] and to [Remove]. Calling an accessor twice gives
    the same snapshot twice and changes nothing. *)
Theorem dry_run_records_calls h (cs : list Call) :
  ∃ fs',
    calls cs (h, NewDryRunFileSystem)
      = Some (replicate (length cs) nil_error, (h, fs')) ∧
    (∃ w,
      (x ← GetWrittenFiles; y ← GetWrittenFiles; mret (x, y)) (h, fs')
        = Some ((w, w), (h, fs')) ∧
      (∀ p data, w !! p = Some data → ∃ perm, CallWriteFile p data perm ∈ cs) ∧
      (∀ p data perm, CallWriteFile p data perm ∈ cs → is_Some (w !! p)) ∧
      (∀ p, w !! p = last_written p cs)) ∧
    (∃ d,
      (x ← GetCreatedDirs; y ← GetCreatedDirs; mret (x, y)) (h, fs')
        = Some ((d, d), (h, fs')) ∧
      ∀ p, d !! p = if decide (p ∈ mkdir_paths cs) then Some true else None) ∧
    (∃ r,
      (x ← GetRemovedFiles; y ← GetRemovedFiles; mret (x, y)) (h, fs')
        = Some ((r, r), (h, fs')) ∧
      ∀ p, r !! p = if decide (p ∈ remove_paths cs) then Some true else None).
Proof.
  destruct (calls_run h cs NewDryRunFileSystem eq_refl)
    as (fs' & Hcs & Hmu & _ & _ & Hw & Hd & Hr).
  exists fs'. split; [done|]. repeat split.
  - exists (written fs').
    assert (∀ p, written fs' !! p = last_written p cs) as Hlast.
    { intros p. rewrite Hw. by destruct (last_written p cs). }
    split; [|split; [|split; [|done]]].
    + unfold mbind, M_bind, bind.
      by rewrite !GetWrittenFiles_run.
    + intros p data. rewrite Hlast. apply last_written_Some.
    + intros p data perm. rewrite Hlast. apply last_written_is_Some.
  - exists (mkdirs fs'). split.
    + unfold mbind, M_bind, bind.
      by rewrite !GetCreatedDirs_run.
    + intros p. rewrite Hd. by case_decide.
  - exists (removed fs'). split.
    + unfold mbind, M_bind, bind.
      by rewrite !GetRemovedFiles_run.
    + intros p. rewrite Hr. by case_decide.
Qed.

Lemma Exists_run h fs p :
  mu fs = Unlocked →
  Exists p (h, fs) =
    Some (match files fs !! p, created fs !! p, mkdirs fs !! p with
          | None, None, None => is_nil (os_Stat p h).2
          | _, _, _ => true
          end, (h, fs)).
Proof.
  intros Hmu. unfold Exists. rewrite locked_free by exact Hmu.
  destruct fs as [m f w c r d]; simpl in Hmu; subst; unfold_method.
  destruct (f !! p); [done|]. destruct (c !! p); [done|].
  by destruct (d !! p).
Qed.

Lemma Stat_run h fs p :
  mu fs = Unlocked →
  Stat p (h, fs) =
    Some (match files fs !! p, created fs !! p, mkdirs fs !! p with
          | None, None, None => os_Stat p h
          | None, None, Some _ =>
              (Some (FileInfo_mock {| path := p; isDir := true |}),
               nil_error)
          | _, _, _ =>
              (Some (FileInfo_mock {| path := p; isDir := false |}),
               nil_error)
          end, (h, fs)).
Proof.
  intros Hmu. unfold Stat. rewrite locked_free by exact Hmu.
  destruct fs as [m f w c r d]; simpl in Hmu; subst; unfold_method.
  destruct (f !! p); [done|]. destruct (c !! p); [done|].
  by destruct (d !! p).
Qed.

(** C3, as the code has it. A path in the seeded files, the created
    files or the created directories is answered from the overlay,
    whatever the host holds: [Exists] is true and [Stat] returns a mock
    file info named after the path, a directory exactly when the path is
    found only among the created directories. A path in none of the
    overlay maps, or only in the removed set, is answered by the host. *)
Theorem Exists_Stat_overlay h fs p :
  mu fs = Unlocked →
  (is_Some (files fs !! p) ∨ is_Some (created fs !! p)
     ∨ is_Some (mkdirs fs !! p) →
   Exists p (h, fs) = Some (true, (h, fs)) ∧
   ∃ fi, Stat p (h, fs)
           = Some ((Some (FileInfo_mock fi), nil_error), (h, fs)) ∧
         path fi = p ∧
         isDir fi = bool_decide (files fs !! p = None ∧
                                 created fs !! p = None)) ∧
  (files fs !! p = None → written fs !! p = None →
   created fs !! p = None → mkdirs fs !! p = None →
   Exists p (h, fs) = Some (is_nil (os_Stat p h).2, (h, fs)) ∧
   Stat p (h, fs) = Some (os_Stat p h, (h, fs))).
Proof.
  intros Hmu. rewrite Exists_run, Stat_run by done. split.
  - intros Hin.
    destruct (files fs !! p) as [x|] eqn:Hf.
    { split; [done|]. eexists. split; [done|]. split; [done|].
      done. }
    destruct (created fs !! p) as [y|] eqn:Hc.
    { split; [done|]. eexists. split; [done|]. split; [done|].
      done. }
    destruct (mkdirs fs !! p) as [z|] eqn:Hd.
    { split; [done|]. eexists. split; [done|]. split; [done|].
      done. }
    destruct Hin as [[? ?]|[[? ?]|[? ?]]]; done.
  - intros Hf _ Hc Hd. by rewrite Hf, Hc, Hd.
Qed.

End DryRunFS.

Lemma Exists_Stat_overlay_seeded :
  mu seeded = Unlocked ∧
  is_Some (files seeded !! "/test.txt") ∧
  Exists "/test.txt" (empty_host, seeded) = Some (true, (empty_host, seeded)).
Proof.
  assert (is_Some (files seeded !! "/test.txt")) as Hseed.
  { unfold seeded, store_files; simpl. rewrite lookup_insert_eq. by eexists. }
  split; [reflexivity|]. split; [exact Hseed|].
  destruct (Exists_Stat_overlay empty_host seeded "/test.txt" eq_refl)
    as [Hin _].
  apply Hin. by left.
Defined.

(** C3, as the specification has it, fails: a path that is present only in
    the written map, or only in the removed set, is looked up on the host;
    on a host that lacks it [Exists] is false, also right after
    [WriteFile]. *)
Lemma Exists_false_after_WriteFile :
  ∃ fs1 fs2,
    WriteFile "/written.txt" (bytes_of_string "written content") 420
      (empty_host, NewDryRunFileSystem)
      = Some (nil_error, (empty_host, fs1)) ∧
    is_Some (written fs1 !! "/written.txt") ∧
    Exists "/written.txt" (empty_host, fs1)
      = Some (false, (empty_host, fs1)) ∧
    Remove "/gone.txt" (empty_host, NewDryRunFileSystem)
      = Some (nil_error, (empty_host, fs2)) ∧
    is_Some (removed fs2 !! "/gone.txt") ∧
    Exists "/gone.txt" (empty_host, fs2) = Some (false, (empty_host, fs2)).
Proof.
  eexists _, _.
  rewrite WriteFile_run, Remove_run by reflexivity.
  split; [reflexivity|]. split.
  { unfold store_written; simpl. rewrite lookup_insert_eq. by eexists. }
  split; [by rewrite Exists_run by reflexivity|].
  split; [reflexivity|]. split.
  { unfold store_removed; simpl. rewrite lookup_insert_eq. by eexists. }
  by rewrite Exists_run by reflexivity.
Qed.

End SystemFacts.

Module RunnerFacts.
Import System System.Runner StringFacts.

Implicit Types (r : DryRunCommandRunner) (ctx : Context) (name : string)
  (args : list string).

(** [commandString] joins the words with single spaces. *)
Lemma commandString_join name args :
  commandString (name :: args) = Some (String.concat " " (name :: args)).
Proof.
  simpl commandString. f_equal. revert name.
  induction args as [|a args IH]; intros name; [done|].
  cbn [fold_left]. rewrite IH.
  rewrite (concat_cons_sep " " name (a :: args)) by done.
  destruct args as [|b args]; [done|].
  rewrite !(concat_cons_sep " " _ (b :: args)) by done.
  by rewrite !append_assoc.
Qed.

Lemma commandString_single name : commandString [name] = Some name.
Proof. done. Qed.

Ltac run_locked Hmu :=
  rewrite locked_free by exact Hmu;
  cbn [app]; unfold mbind, M_bind, bind at 1;
  rewrite commandString_join; cbn [eval];
  match goal with r : DryRunCommandRunner |- _ =>
    destruct r; simpl in Hmu; subst; unfold_method; unfold log; simpl
  end.

Lemma Run_run ctx name args r :
  mu r = Unlocked →
  Run ctx name args r =
    let c := String.concat " " (name :: args) in
    Some (default nil_error (errors r !! c), log c r).
Proof.
  intros Hmu. unfold Run. run_locked Hmu.
  by destruct (_ !! _).
Qed.

Lemma Output_run ctx name args r :
  mu r = Unlocked →
  Output ctx name args r =
    let c := String.concat " " (name :: args) in
    Some (match errors r !! c with
          | Some err => (None, err)
          | None => (default (Some []) (output r !! c), nil_error)
          end, log c r).
Proof.
  intros Hmu. unfold Output. run_locked Hmu.
  destruct (_ !! _); [done|]. by destruct (_ !! _).
Qed.

Lemma Start_run ctx name args r :
  mu r = Unlocked →
  Start ctx name args r =
    let c := String.concat " " (name :: args) in
    Some (match errors r !! c with
          | Some err => (None, err)
          | None => (Some (Process_mock mkMockProcess), nil_error)
          end, log c r).
Proof.
  intros Hmu. unfold Start. run_locked Hmu.
  by destruct (_ !! _).
Qed.

Lemma AddError_run command err r :
  mu r = Unlocked →
  AddError command err r =
    Some (tt, {| mu := Unlocked; ran := ran r; output := output r;
                 errors := <[command:=err]> (errors r) |}).
Proof.
  intros Hmu. unfold AddError. rewrite locked_free by exact Hmu.
  destruct r; simpl in Hmu; subst. by unfold_method.
Qed.

(** C6. With the mutex free, each of [Run], [Output], [CombinedOutput] and
    [Start] returns and appends the command line, the words joined by
    single spaces, to the log. If the error map holds an error for that
    very line, the four return it ([Output], [CombinedOutput] and [Start]
    next to a nil result). With neither an error nor an output registered
    for it, [Output] returns the empty byte string and nil. [AddError]
    puts its error into the map under the line given and leaves the log
    alone. *)
Theorem canned_error_is_returned ctx name args r :
  mu r = Unlocked →
  let c := String.concat " " (name :: args) in
  let r' := log c r in
  ran r' = ran r ++ [c] ∧
  (∃ e o o' p,
    Run ctx name args r = Some (e, r') ∧
    Output ctx name args r = Some (o, r') ∧
    CombinedOutput ctx name args r = Some (o', r') ∧
    Start ctx name args r = Some (p, r')) ∧
  (∀ err, errors r !! c = Some err →
    Run ctx name args r = Some (err, r') ∧
    Output ctx name args r = Some ((None, err), r') ∧
    CombinedOutput ctx name args r = Some ((None, err), r') ∧
    Start ctx name args r = Some ((None, err), r')) ∧
  (errors r !! c = None → output r !! c = None →
    Output ctx name args r = Some ((Some [], nil_error), r')) ∧
  (∀ err, ∃ r1,
    AddError c err r = Some (tt, r1) ∧
    mu r1 = Unlocked ∧ ran r1 = ran r ∧ errors r1 !! c = Some err).
Proof.
  intros Hmu c r'. unfold CombinedOutput.
  rewrite Run_run, Output_run, Start_run by done. subst c r'. cbn zeta.
  split; [done|]. split; [by eexists _, _, _, _|]. split; [|split].
  - intros err Herr. by rewrite Herr.
  - intros Herr Hout. by rewrite Herr, Hout.
  - intros err. eexists. rewrite AddError_run by done.
    split; [done|]. split; [done|]. split; [done|].
    simpl. apply lookup_insert_eq.
Qed.

(** The scenario of the tests: the error registered for
    ["failing-command"] comes back from [Run], and the log then holds that
    line. *)
Lemma canned_error_is_returned_failing_command :
  mu failing_runner = Unlocked ∧
  errors failing_runner !! "failing-command" = Some testError ∧
  Run Background "failing-command" [] failing_runner
    = Some (testError, log "failing-command" failing_runner) ∧
  "failing-command" ∈ ran (log "failing-command" failing_runner).
Proof.
  assert (errors failing_runner !! "failing-command" = Some testError)
    as Herr by apply lookup_singleton_eq.
  split; [reflexivity|]. split; [exact Herr|].
  destruct (canned_error_is_returned Background "failing-command" []
              failing_runner eq_refl) as (Hlog & _ & Hcanned & _).
  split.
  - exact (proj1 (Hcanned testError Herr)).
  - simpl. rewrite !elem_of_cons. auto.
Defined.

(** C10. [CombinedOutput] is [Output]: in every state of the runner, the
    mutex held or free, and for every context, name and arguments the two
    return the same bytes and error and leave the same runner behind, or
    both do not return. *)
Theorem CombinedOutput_is_Output :
  CombinedOutput = Output ∧
  ∀ ctx name args r,
    CombinedOutput ctx name args r = Output ctx name args r.
Proof. split; reflexivity. Qed.

(** C9, as the code has it. With the mutex free and no error registered
    for the command line, [Start] logs the line and returns, with a nil
    error, a mock process whose [Wait] and [Kill] return nil and whose
    [StdinPipe], [StdoutPipe] and [StderrPipe] return the nil stream with
    a nil error. *)
Theorem Start_returns_mock_process ctx name args r :
  mu r = Unlocked →
  errors r !! String.concat " " (name :: args) = None →
  ∃ p,
    Start ctx name args r
      = Some ((Some p, nil_error), log (String.concat " " (name :: args)) r) ∧
    Wait p = nil_error ∧
    Kill p = nil_error ∧
    StdinPipe p = (None, nil_error) ∧
    StdoutPipe p = (None, nil_error) ∧
    StderrPipe p = (None, nil_error).
Proof.
  intros Hmu Herr. rewrite Start_run by done. cbn zeta. rewrite Herr.
  by eexists.
Qed.

Lemma Start_returns_mock_process_sleep :
  mu NewDryRunCommandRunner = Unlocked ∧
  errors NewDryRunCommandRunner !! String.concat " " ["sleep"; "1"] = None ∧
  ∃ p,
    Start Background "sleep" ["1"] NewDryRunCommandRunner
      = Some ((Some p, nil_error), log "sleep 1" NewDryRunCommandRunner) ∧
    Wait p = nil_error ∧ Kill p = nil_error.
Proof.
  split; [reflexivity|]. split; [reflexivity|].
  destruct (Start_returns_mock_process Background "sleep" ["1"]
              NewDryRunCommandRunner eq_refl eq_refl)
    as (p & HStart & HWait & HKill & _).
  exists p. by repeat split.
Defined.

(** C9, as the specification has it, fails: the process [Start] returns
    hands out no stream at all. Its [StdoutPipe] (and likewise the other
    two) is the nil interface, which is not a drained stream: a read from
    it does not report the end of file, it aborts. *)
Lemma mock_process_streams_are_nil :
  ∃ p r',
    Start Background "sleep" ["1"] NewDryRunCommandRunner
      = Some ((Some p, nil_error), r') ∧
    (StdinPipe p).1 = None ∧
    (StdoutPipe p).1 = None ∧
    (StderrPipe p).1 = None ∧
    Stream_Read (StdoutPipe p).1 [] = None ∧
    ¬ drained (StdoutPipe p).1 ∧
    ¬ drained (StderrPipe p).1.
Proof.
  eexists _, _. rewrite Start_run by reflexivity.
  split; [reflexivity|]. repeat split; try done.
  - intros Hd. specialize (Hd []). done.
  - intros Hd. specialize (Hd []). done.
Qed.

End RunnerFacts.

Module WireGuardFacts.
Import Strings StringFacts WireGuard.

(** C5. [extractValue] splits a line at its first [=]. A line without
    [=] has the empty value. For a line [key=rest], where [key] has no
    [=], the value sits inside [rest] between two runs of white space,
    and neither starts nor ends with white space: the ends are trimmed and
    the interior is kept as it is. The three cases of the tests come out
    as expected. *)
Theorem extractValue_splits_at_first_equals :
  (∀ line, occurs "=" line = false → extractValue line = "") ∧
  (∀ key rest,
     occurs "=" key = false →
     ∃ l r,
       rest = l +:+ extractValue (key +:+ "=" +:+ rest) +:+ r ∧
       all_space l = true ∧ all_space r = true ∧
       solid (first_char (extractValue (key +:+ "=" +:+ rest))) ∧
       solid (last_char (extractValue (key +:+ "=" +:+ rest)))) ∧
  extractValue "Key = Value With Spaces" = "Value With Spaces" ∧
  extractValue "NoEquals" = "" ∧
  extractValue "Key=ValueNoSpaces" = "ValueNoSpaces".
Proof.
  split; [|split].
  - intros line Hline. unfold extractValue. by rewrite Cut_None.
  - intros key rest Hkey. unfold extractValue.
    change (key +:+ "=" +:+ rest) with (key +:+ String "=" rest).
    rewrite Cut_app by done. apply TrimSpace_split.
  - by vm_compute.
Qed.

(** *** [GetPeerByIP] *)

Lemma hostPart_suffix host suffix :
  occurs "/" host = false → hostPart (host +:+ "/" +:+ suffix) = host.
Proof.
  intros Hhost. unfold hostPart.
  change (host +:+ "/" +:+ suffix) with (host +:+ String "/" suffix).
  by rewrite Cut_app.
Qed.

Lemma hostPart_bare allowed :
  occurs "/" allowed = false → hostPart allowed = allowed.
Proof. intros H. unfold hostPart. by rewrite Cut_None. Qed.

(** C7. [GetPeerByIP] scans the peers in file order. It returns a peer
    exactly when that peer is the first whose [AllowedIPs], cut at the
    first [/], is the address asked for, whether or not later peers carry
    the same address; it returns nil exactly when no peer does. The bare
    address of [host/suffix] is [host], and an entry without [/] is its
    own bare address. *)
Theorem GetPeerByIP_first_match (c : Config) (ip : string) :
  (∀ p, GetPeerByIP c ip = Some p ↔
        ∃ before after,
          GetPeers c = before ++ p :: after ∧
          hostPart (AllowedIPs p) = ip ∧
          Forall (λ q, hostPart (AllowedIPs q) ≠ ip) before) ∧
  (GetPeerByIP c ip = None ↔
     Forall (λ q, hostPart (AllowedIPs q) ≠ ip) (GetPeers c)) ∧
  (∀ host suffix,
     occurs "/" host = false → hostPart (host +:+ "/" +:+ suffix) = host) ∧
  (∀ allowed, occurs "/" allowed = false → hostPart allowed = allowed).
Proof.
  unfold GetPeerByIP, GetPeers.
  split; [|split; [|split; [apply hostPart_suffix|apply hostPart_bare]]].
  - intros p. induction (peers c) as [|q ps IH]; simpl.
    + split; [done|]. intros (before & after & Hnil & _).
      by destruct before.
    + destruct (String.eqb_spec (hostPart (AllowedIPs q)) ip) as [Hq|Hq].
      * split.
        -- intros [= ->]. by exists [], ps.
        -- intros (before & after & Hps & Hp & Hbefore).
           destruct before as [|q' before]; simplify_eq/=; [done|].
           by apply Forall_cons in Hbefore as [? _].
      * rewrite IH. split.
        -- intros (before & after & -> & Hp & Hbefore).
           exists (q :: before), after. by repeat constructor.
        -- intros (before & after & Hps & Hp & Hbefore).
           destruct before as [|q' before]; simplify_eq/=.
           apply Forall_cons in Hbefore as [_ Hbefore]. eauto.
  - induction (peers c) as [|q ps IH]; simpl; [done|].
    destruct (String.eqb_spec (hostPart (AllowedIPs q)) ip) as [Hq|Hq].
    + split; [done|]. by intros [? _]%Forall_cons.
    + rewrite IH. split; [by constructor|]. by intros [_ ?]%Forall_cons.
Qed.

(** *** [ValidatePublicKey] *)
















(** *** [Load] *)

Lemma TrimSpace_blank line :
  String.eqb (TrimSpace line) "" = all_space line.
Proof.
  induction line as [|a line IH]; [done|].
  simpl all_space. destruct (is_space a) eqn:Ha.
  - by rewrite TrimSpace_space_l.
  - by rewrite TrimSpace_solid.
Qed.

Lemma commentText_name line :
  default "" (commentText line) = commentName line.
Proof.
  destruct line as [|a text]; [done|]. simpl.
  by destruct (Ascii.eqb a "#").
Qed.

Lemma commentText_kind line :
  commentText line = None ↔ isComment line = false.
Proof.
  destruct line as [|a text]; [done|]. simpl.
  by destruct (Ascii.eqb a "#").
Qed.

(** A key line is handed to [assign]. *)
Lemma parseLine_key st line :
  isKeyLine line = true →
  parseLine st line = assign st (extractKey line) (extractValue line).
Proof.
  unfold isKeyLine, isMarker, isBlank.
  intros [[Hmarker Hcomment]%andb_true_iff Hblank]%andb_true_iff.
  apply negb_true_iff, orb_false_iff in Hmarker as [HI HP].
  apply negb_true_iff, commentText_kind in Hcomment.
  apply negb_true_iff in Hblank.
  unfold parseLine. by rewrite HI, HP, Hcomment, TrimSpace_blank, Hblank.
Qed.

(** A comment or a blank line changes the look-back slot and nothing
    else. *)
Lemma parseLine_filler st line :
  isMarker line = false → isKeyLine line = false →
  parseLine st line =
    {| config := config st; section := section st; fresh := fresh st;
       lookback := commentText line |}.
Proof.
  unfold isKeyLine. intros Hmarker Hkey. rewrite Hmarker in Hkey.
  unfold isMarker in Hmarker. apply orb_false_iff in Hmarker as [HI HP].
  unfold parseLine. rewrite HI, HP, TrimSpace_blank.
  destruct (commentText line) as [text|] eqn:Hcomment; [done|].
  apply commentText_kind in Hcomment. rewrite Hcomment in Hkey.
  unfold isBlank in Hkey. simpl in Hkey.
  apply negb_false_iff in Hkey. by rewrite Hkey.
Qed.

Lemma updateLast_app f acc p : updateLast f (acc ++ [p]) = acc ++ [f p].
Proof.
  induction acc as [|q acc IH]; [done|]. simpl. rewrite IH.
  by destruct acc.
Qed.

Lemma setting_nil key dflt : setting key dflt [] = dflt.
Proof. reflexivity. Qed.

(** The first line gives the key its value for as long as no later line
    does. *)
Lemma setting_cons key dflt line lines :
  setting key dflt (line :: lines)
  = setting key
      (if isKeyLine line && String.eqb (extractKey line) key
       then extractValue line else dflt)
      lines.
Proof.
  unfold setting. simpl List.filter.
  destruct (isKeyLine line && String.eqb (extractKey line) key); [|done].
  simpl map. rewrite last_cons. by destruct (last _).
Qed.

(** Lines before the first section marker leave the configuration as it
    is. *)
Lemma parse_preamble lines : ∀ st,
  Forall (λ line, isMarker line = false) lines →
  section st = Unset →
  config (fold_left parseLine lines st) = config st.
Proof.
  induction lines as [|line lines IH]; intros st Hlines Hsection; [done|].
  apply Forall_cons in Hlines as [Hline Hlines]. cbn [fold_left].
  destruct (isKeyLine line) eqn:Hkey.
  - rewrite parseLine_key by done. unfold assign. rewrite Hsection.
    by rewrite IH.
  - rewrite parseLine_filler by done. by rewrite IH.
Qed.

Lemma setInterface_fields key value c :
  path (setInterface key value c) = path c ∧
  iface (setInterface key value c) = iface c ∧
  peers (setInterface key value c) = peers c ∧
  privateKey (setInterface key value c)
    = (if String.eqb key "PrivateKey" then value else privateKey c) ∧
  address (setInterface key value c)
    = (if String.eqb key "Address" then value else address c) ∧
  listenPort (setInterface key value c)
    = (if String.eqb key "ListenPort" then value else listenPort c) ∧
  postUp (setInterface key value c)
    = (if String.eqb key "PostUp" then value else postUp c) ∧
  postDown (setInterface key value c)
    = (if String.eqb key "PostDown" then value else postDown c).
Proof.
  unfold setInterface.
  destruct (String.eqb_spec key "PrivateKey") as [->|_]; [done|].
  destruct (String.eqb_spec key "Address") as [->|_]; [done|].
  destruct (String.eqb_spec key "ListenPort") as [->|_]; [done|].
  destruct (String.eqb_spec key "PostUp") as [->|_]; [done|].
  by destruct (String.eqb_spec key "PostDown") as [->|_].
Qed.

(** The lines of the [Interface] section give each field the value of the
    last key line with its key. *)
Lemma parse_interface lines : ∀ st,
  Forall (λ line, isMarker line = false) lines →
  section st = InInterface →
  section (fold_left parseLine lines st) = InInterface ∧
  config (fold_left parseLine lines st)
  = {| path := path (config st); iface := iface (config st);
       privateKey := setting "PrivateKey" (privateKey (config st)) lines;
       address := setting "Address" (address (config st)) lines;
       listenPort := setting "ListenPort" (listenPort (config st)) lines;
       postUp := setting "PostUp" (postUp (config st)) lines;
       postDown := setting "PostDown" (postDown (config st)) lines;
       peers := peers (config st) |}.
Proof.
  induction lines as [|line lines IH]; intros st Hlines Hsection.
  - split; [done|]. rewrite !setting_nil. cbn [fold_left].
    by destruct (config st).
  - apply Forall_cons in Hlines as [Hline Hlines]. cbn [fold_left].
    rewrite !setting_cons.
    destruct (isKeyLine line) eqn:Hkey.
    + rewrite parseLine_key by done. unfold assign. rewrite Hsection.
      destruct (IH {| config := setInterface (extractKey line)
                                  (extractValue line) (config st);
                      section := InInterface; fresh := fresh st;
                      lookback := None |} Hlines eq_refl) as [-> ->].
      split; [done|]. cbn [config andb].
      destruct (setInterface_fields (extractKey line) (extractValue line)
                  (config st))
        as (-> & -> & -> & -> & -> & -> & -> & ->).
      done.
    + rewrite parseLine_filler by done.
      destruct (IH {| config := config st; section := section st;
                      fresh := fresh st; lookback := commentText line |}
                  Hlines Hsection) as [-> ->].
      done.
Qed.

Lemma setPeer_fields key value p :
  Name (setPeer key value p) = Name p ∧
  PublicKey (setPeer key value p)
    = (if String.eqb key "PublicKey" then value else PublicKey p) ∧
  AllowedIPs (setPeer key value p)
    = (if String.eqb key "AllowedIPs" then value else AllowedIPs p).
Proof.
  unfold setPeer.
  destruct (String.eqb_spec key "PublicKey") as [->|_]; [done|].
  by destruct (String.eqb_spec key "AllowedIPs") as [->|_].
Qed.

(** The lines of a peer after its first key line: they give the two keys
    their values and leave the name alone. *)
Lemma parse_peer_named lines : ∀ st acc p,
  Forall (λ line, isMarker line = false) lines →
  section st = InPeer → fresh st = false →
  peers (config st) = acc ++ [p] →
  config (fold_left parseLine lines st)
  = set_peers
      (acc ++ [{| Name := Name p;
                  PublicKey := setting "PublicKey" (PublicKey p) lines;
                  AllowedIPs := setting "AllowedIPs" (AllowedIPs p) lines |}])
      (config st).
Proof.
  induction lines as [|line lines IH]; intros st acc p Hlines Hsection Hfresh
    Hpeers.
  - rewrite !setting_nil. cbn [fold_left]. unfold set_peers.
    destruct (config st); simpl in *. destruct p. by rewrite Hpeers.
  - apply Forall_cons in Hlines as [Hline Hlines]. cbn [fold_left].
    rewrite !setting_cons.
    destruct (isKeyLine line) eqn:Hkey.
    + rewrite parseLine_key by done. unfold assign.
      rewrite Hsection, Hfresh, Hpeers, updateLast_app.
      rewrite (IH _ acc (setPeer (extractKey line) (extractValue line) p))
        by done.
      cbn [config andb].
      destruct (setPeer_fields (extractKey line) (extractValue line) p)
        as (-> & -> & ->).
      done.
    + rewrite parseLine_filler by done.
      by rewrite (IH _ acc p).
Qed.

(** The lines of a peer from its marker on: the line directly before the
    first key line gives the name. *)
Lemma parse_peer_fresh lines : ∀ st acc p prev,
  Forall (λ line, isMarker line = false) lines →
  section st = InPeer → fresh st = true →
  lookback st = commentText prev →
  peers (config st) = acc ++ [p] →
  config (fold_left parseLine lines st)
  = set_peers
      (acc ++ [{| Name := match beforeFirstKey prev lines with
                          | Some line => commentName line
                          | None => Name p
                          end;
                  PublicKey := setting "PublicKey" (PublicKey p) lines;
                  AllowedIPs := setting "AllowedIPs" (AllowedIPs p) lines |}])
      (config st).
Proof.
  induction lines as [|line lines IH];
    intros st acc p prev Hlines Hsection Hfresh Hlookback Hpeers.
  - rewrite !setting_nil. cbn [fold_left beforeFirstKey]. unfold set_peers.
    destruct (config st); simpl in *. destruct p. by rewrite Hpeers.
  - apply Forall_cons in Hlines as [Hline Hlines].
    cbn [fold_left beforeFirstKey]. rewrite !setting_cons.
    destruct (isKeyLine line) eqn:Hkey.
    + rewrite parseLine_key by done. unfold assign.
      rewrite Hsection, Hfresh, Hpeers, updateLast_app, Hlookback.
      rewrite commentText_name.
      rewrite (parse_peer_named lines _ acc
                 (setPeer (extractKey line) (extractValue line)
                    (setName (commentName prev) p))) by done.
      cbn [config andb].
      destruct (setPeer_fields (extractKey line) (extractValue line)
                  (setName (commentName prev) p))
        as (-> & -> & ->).
      done.
    + rewrite parseLine_filler by done.
      by rewrite (IH _ acc p line).
Qed.

(** A marker and the lines of its peer append that peer. *)
Lemma parse_block block st acc :
  Forall (λ line, isMarker line = false) block →
  peers (config st) = acc →
  config (fold_left parseLine ("[Peer]" :: block) st)
  = set_peers (acc ++ [peerOf block]) (config st).
Proof.
  intros Hblock Hpeers. cbn [fold_left].
  change (parseLine st "[Peer]")
    with {| config := set_peers (peers (config st) ++ [emptyPeer])
                        (config st);
            section := InPeer; fresh := true; lookback := None |}.
  rewrite (parse_peer_fresh block _ acc emptyPeer "[Peer]");
    [|done|done|done|done|by rewrite <- Hpeers].
  unfold peerOf, nameOf. cbn [config].
  by destruct (beforeFirstKey "[Peer]" block).
Qed.

Lemma parse_blocks blocks : ∀ st acc,
  Forall (Forall (λ line, isMarker line = false)) blocks →
  peers (config st) = acc →
  config (fold_left parseLine (concat (map (cons "[Peer]") blocks)) st)
  = set_peers (acc ++ map peerOf blocks) (config st).
Proof.
  induction blocks as [|block blocks IH]; intros st acc Hblocks Hpeers.
  - simpl. rewrite app_nil_r, <- Hpeers. by destruct (config st).
  - apply Forall_cons in Hblocks as [Hblock Hblocks].
    cbn [map concat]. rewrite fold_left_app.
    rewrite (IH _ (acc ++ [peerOf block])); [|done|].
    + rewrite (parse_block block st acc) by done. cbn [map].
      by rewrite <- app_assoc.
    + by rewrite (parse_block block st acc).
Qed.

(** The parse of a file, by its sections. *)
Lemma parse_fileLines c preamble body blocks :
  Forall (λ line, isMarker line = false) preamble →
  Forall (λ line, isMarker line = false) body →
  Forall (Forall (λ line, isMarker line = false)) blocks →
  config (fold_left parseLine (fileLines preamble body blocks)
            {| config := set_peers [] c; section := Unset; fresh := false;
               lookback := None |})
  = {| path := path c; iface := iface c;
       privateKey := setting "PrivateKey" (privateKey c) body;
       address := setting "Address" (address c) body;
       listenPort := setting "ListenPort" (listenPort c) body;
       postUp := setting "PostUp" (postUp c) body;
       postDown := setting "PostDown" (postDown c) body;
       peers := map peerOf blocks |}.
Proof.
  intros Hpreamble Hbody Hblocks. unfold fileLines.
  rewrite fold_left_app. cbn [fold_left]. rewrite fold_left_app.
  set (st0 := fold_left parseLine preamble _).
  assert (config st0 = set_peers [] c) as H0
    by (by apply parse_preamble).
  set (st1 := parseLine st0 "[Interface]").
  assert (config st1 = set_peers [] c ∧ section st1 = InInterface)
    as [H1 Hsection] by done.
  destruct (parse_interface body st1 Hbody Hsection) as [_ H2].
  rewrite (parse_blocks blocks _ []); [|done|by rewrite H2, H1].
  by rewrite H2, H1.
Qed.

(** C4. A well-formed file is what may come before the [[Interface]]
    marker, the marker with the lines of its section, and a [[Peer]]
    marker with the lines of its peer for every peer, two or any other
    number of them; the lines are comments, blank lines and key lines in
    any order. When the file at the configuration's path reads as such a
    file, [Load] succeeds, over any implementation of the [FileSystem]
    contract. The private key, the address, the listen port and the two
    commands are those of the last line of the [Interface] section with
    their key, and remain as they were without such a line. [GetPeers]
    returns one peer for every [[Peer]] marker, in file order: its name
    is that of the comment directly before the peer's first key line, and
    empty when that line is no comment or the peer has no key line; its
    public key and allowed addresses are the values of the last lines of
    the peer with these keys. Key lines of another section, comments in
    other places and lines before the first marker do not count. The
    files the tests write for [TestGetPeerByIP] and [TestGetNextIP], and
    a file with comments and keys in other places, load as follows. *)
Theorem Load_well_formed :
  (∀ (S : Type) (FS : System.FileSystem S) (c : Config) (s s' : S)
     (data : bytes) (preamble body : list string)
     (blocks : list (list string)),
     Forall (λ line, isMarker line = false) preamble →
     Forall (λ line, isMarker line = false) body →
     Forall (Forall (λ line, isMarker line = false)) blocks →
     Forall (λ line, occurs "010" line = false)
       (fileLines preamble body blocks) →
     System.fs_ReadFile (path c) s = Some ((data, nil_error), s') →
     string_of_bytes data = fileText (fileLines preamble body blocks) →
     ∃ c',
       Load c s = Some ((nil_error, c'), s') ∧
       path c' = path c ∧ iface c' = iface c ∧
       privateKey c' = setting "PrivateKey" (privateKey c) body ∧
       address c' = setting "Address" (address c) body ∧
       listenPort c' = setting "ListenPort" (listenPort c) body ∧
       postUp c' = setting "PostUp" (postUp c) body ∧
       postDown c' = setting "PostDown" (postDown c) body ∧
       GetPeers c' = map peerOf blocks) ∧
  parse (NewConfig "/tmp/wg0.conf" "wg0") (fileText testGetPeerByIPLines)
    = {| path := "/tmp/wg0.conf"; iface := "wg0";
         privateKey := "cGFzc3dvcmQ="; address := "10.100.0.1/24";
         listenPort := ""; postUp := ""; postDown := "";
         peers :=
           [{| Name := "alice"; PublicKey := "YWxpY2VrZXk=";
               AllowedIPs := "10.100.0.2/32" |};
            {| Name := "bob"; PublicKey := "Ym9ia2V5";
               AllowedIPs := "10.100.0.3/32" |}] |} ∧
  parse (NewConfig "/tmp/wg0.conf" "wg0") (fileText testGetNextIPLines)
    = twoPeers ∧
  parse (NewConfig "/tmp/wg0.conf" "wg0") (fileText strayLines)
    = {| path := "/tmp/wg0.conf"; iface := "wg0";
         privateKey := "cGFzc3dvcmQ="; address := "10.100.0.1/24";
         listenPort := ""; postUp := ""; postDown := "";
         peers :=
           [{| Name := "alice"; PublicKey := "YWxpY2VrZXk=";
               AllowedIPs := "10.100.0.2/32" |};
            {| Name := ""; PublicKey := "Ym9ia2V5";
               AllowedIPs := "10.100.0.3/32" |}] |}.
Proof.
  split; [|by vm_compute].
  intros S FS c s s' data preamble body blocks Hpreamble Hbody Hblocks
    Hlines Hread Htext.
  eexists. split.
  - unfold Load, mbind, M_bind, bind. rewrite Hread. cbn.
    rewrite Htext. unfold parse, fileText.
    rewrite Split_Join; [|by unfold fileLines; destruct preamble|done].
    rewrite parse_fileLines by done. reflexivity.
  - by cbn.
Qed.

(** [TestLoad], on the dry-run file system: the file of the test is
    well-formed and [Load] brings back what the test expects, its two
    peers alice and bob among it. *)
Lemma Load_well_formed_TestLoad :
  Load (NewConfig "/tmp/wg0.conf" "wg0") (System.empty_host, testFiles)
    = Some ((nil_error, testConfig), (System.empty_host, testFiles)) ∧
  Name <$> GetPeers testConfig = ["alice"; "bob"].
Proof.
  assert (System.fs_ReadFile (path (NewConfig "/tmp/wg0.conf" "wg0"))
            (System.empty_host, testFiles)
          = Some ((bytes_of_string
                     (fileText (fileLines [] testLoadInterface
                                  testLoadPeers)), nil_error),
                  (System.empty_host, testFiles))) as Hread.
  { cbn [System.fs_ReadFile System.DryRunFileSystem_FileSystem].
    unfold System.ReadFile. rewrite locked_free by reflexivity.
    unfold_method. unfold testFiles, System.store_files; simpl.
    rewrite lookup_empty, lookup_insert_eq. reflexivity. }
  split; [|reflexivity].
  destruct (proj1 Load_well_formed _ _
              (NewConfig "/tmp/wg0.conf" "wg0") _ _ _
              [] testLoadInterface testLoadPeers
              ltac:(constructor) ltac:(by repeat constructor)
              ltac:(by repeat constructor) ltac:(by repeat constructor)
              Hread)
    as (c' & HLoad & Hpath & Hiface & Hkey & Haddr & Hport & Hup & Hdown
        & Hpeers).
  - unfold bytes_of_string, string_of_bytes.
    apply String.string_of_list_byte_of_string.
  - etransitivity; [exact HLoad|]. destruct c'; simpl in *. by subst.
Defined.

(** *** [GetNextIP] *)

Lemma taken_iff c a :
  taken c a = true ↔
  ∃ p, p ∈ GetPeers c ∧ hostPart (AllowedIPs p) = ipString a.
Proof.
  unfold taken, GetPeerByIP, GetPeers. split.
  - destruct (find _ _) as [p|] eqn:Hfind; [|done]. intros _.
    apply find_some in Hfind as [Hin Heq].
    exists p. split; [by apply list_elem_of_In|]. by apply String.eqb_eq.
  - intros (p & Hin & Hp).
    destruct (find _ _) as [q|] eqn:Hfind; [done|].
    apply list_elem_of_In in Hin.
    apply (find_none _ _ Hfind) in Hin. simpl in Hin.
    apply String.eqb_neq in Hin. done.
Qed.

Lemma candidates_lookup network bits i a :
  candidates network bits !! i = Some a ↔
  a = network + 2 + Z.of_nat i ∧ a < network + 2 ^ (32 - bits).
Proof. unfold candidates. rewrite lookup_seqZ. lia. Qed.

(** The numbers from 0 to 255 and their numerals. *)
Lemma octet_numeral o :
  0 ≤ o ≤ 255 →
  parseOctet (pretty o) = Some o ∧
  occurs "." (pretty o) = false ∧ occurs "/" (pretty o) = false.
Proof.
  intros Ho.
  assert (forallb
            (λ o, bool_decide (parseOctet (pretty o) = Some o)
                  && negb (occurs "." (pretty o))
                  && negb (occurs "/" (pretty o)))
            (seqZ 0 256) = true) as Hall by (by vm_compute).
  rewrite forallb_forall in Hall.
  specialize (Hall o). rewrite <- list_elem_of_In, elem_of_seqZ in Hall.
  specialize (Hall ltac:(lia)).
  apply andb_true_iff in Hall as [[Hparse Hdot]%andb_true_iff Hslash].
  apply bool_decide_eq_true in Hparse.
  by apply negb_true_iff in Hdot; apply negb_true_iff in Hslash.
Qed.

(** The prefix lengths and their numerals. *)
Lemma prefix_numeral n : 0 ≤ n ≤ 32 → Atoi (pretty n) = Some n.
Proof.
  intros Hn.
  assert (forallb (λ n, bool_decide (Atoi (pretty n) = Some n))
            (seqZ 0 33) = true) as Hall by (by vm_compute).
  rewrite forallb_forall in Hall.
  specialize (Hall n). rewrite <- list_elem_of_In, elem_of_seqZ in Hall.
  specialize (Hall ltac:(lia)). by apply bool_decide_eq_true in Hall.
Qed.

(** Putting a number in front of one that is short enough. *)
Lemma lor_shiftl hi lo k :
  0 ≤ k → 0 ≤ lo < 2 ^ k → Z.lor (Z.shiftl hi k) lo = hi * 2 ^ k + lo.
Proof.
  intros Hk Hlo. rewrite Z.shiftl_mul_pow2 by done.
  assert (Z.land (hi * 2 ^ k) lo = 0) as Hland.
  { destruct (decide (lo = 0)) as [->|Hne]; [apply Z.land_0_r|].
    apply Z.bits_inj'. intros i Hi. rewrite Z.land_spec, Z.bits_0.
    destruct (decide (i < k)) as [Hlt|Hge].
    - by rewrite Z.mul_pow2_bits_low.
    - rewrite (Z.bits_above_log2 lo i), andb_false_r; [done|lia|].
      apply Z.log2_lt_pow2; [lia|].
      apply Z.lt_le_trans with (2 ^ k); [lia|].
      apply Z.pow_le_mono_r; lia. }
  by rewrite Z.add_nocarry_lxor, Z.lxor_lor.
Qed.

Lemma quad_range o3 o2 o1 o0 :
  0 ≤ o3 ≤ 255 → 0 ≤ o2 ≤ 255 → 0 ≤ o1 ≤ 255 → 0 ≤ o0 ≤ 255 →
  0 ≤ quad o3 o2 o1 o0 < 2 ^ 32.
Proof. unfold quad. change (2 ^ 32) with 4294967296. lia. Qed.

(** The text of an address is read as its number. *)
Lemma parseIPv4_dotted o3 o2 o1 o0 :
  0 ≤ o3 ≤ 255 → 0 ≤ o2 ≤ 255 → 0 ≤ o1 ≤ 255 → 0 ≤ o0 ≤ 255 →
  parseIPv4 (dotted o3 o2 o1 o0) = Some (quad o3 o2 o1 o0).
Proof.
  intros H3 H2 H1 H0.
  destruct (octet_numeral o3 H3) as (P3 & D3 & _).
  destruct (octet_numeral o2 H2) as (P2 & D2 & _).
  destruct (octet_numeral o1 H1) as (P1 & D1 & _).
  destruct (octet_numeral o0 H0) as (P0 & D0 & _).
  unfold parseIPv4, dotted.
  rewrite !append_cons, !append_nil, !Split_app, Split_no_sep by done.
  rewrite P3, P2, P1, P0. f_equal.
  rewrite (lor_shiftl o1 o0 8) by lia.
  rewrite (lor_shiftl o2 _ 16) by lia.
  rewrite (lor_shiftl o3 _ 24) by lia.
  unfold quad. lia.
Qed.

(** Masking clears the host bits. *)
Lemma land_mask a n :
  0 ≤ a < 2 ^ 32 → 0 ≤ n ≤ 32 →
  Z.land a (mask n) = a - a `mod` 2 ^ (32 - n).
Proof.
  intros Ha Hn.
  assert (a - a `mod` 2 ^ (32 - n)
          = Z.shiftl (Z.shiftr a (32 - n)) (32 - n)) as ->.
  { rewrite Z.shiftl_mul_pow2, Z.shiftr_div_pow2 by lia.
    pose proof (Z.div_mod a (2 ^ (32 - n))). lia. }
  apply Z.bits_inj'. intros i Hi. unfold mask.
  rewrite Z.land_spec.
  destruct (decide (i < 32 - n)) as [Hlow|Hhigh].
  - rewrite !Z.shiftl_spec_low by done. apply andb_false_r.
  - rewrite !Z.shiftl_spec, Z.shiftr_spec by lia.
    replace (i - (32 - n) + (32 - n)) with i by lia.
    destruct (decide (i < 32)) as [Hin|Hout].
    + rewrite Z.ones_spec_low by lia. apply andb_true_r.
    + rewrite Z.ones_spec_high, andb_false_r by lia.
      symmetry. apply Z.bits_above_log2; [lia|].
      destruct (decide (a = 0)) as [->|Hne]; [simpl; lia|].
      apply Z.log2_lt_pow2; [lia|].
      apply Z.lt_le_trans with (2 ^ 32); [lia|].
      apply Z.pow_le_mono_r; lia.
Qed.

(** The text of a block is read as its network address and its prefix
    length. *)
Lemma ParseCIDR_dotted o3 o2 o1 o0 n :
  0 ≤ o3 ≤ 255 → 0 ≤ o2 ≤ 255 → 0 ≤ o1 ≤ 255 → 0 ≤ o0 ≤ 255 →
  0 ≤ n ≤ 32 →
  ParseCIDR (dotted o3 o2 o1 o0 +:+ "/" +:+ pretty n)
  = Some (quad o3 o2 o1 o0 - quad o3 o2 o1 o0 `mod` 2 ^ (32 - n), n).
Proof.
  intros H3 H2 H1 H0 Hn. unfold ParseCIDR.
  assert (occurs "/" (dotted o3 o2 o1 o0) = false) as Hslash.
  { destruct (octet_numeral o3 H3) as (_ & _ & S3).
    destruct (octet_numeral o2 H2) as (_ & _ & S2).
    destruct (octet_numeral o1 H1) as (_ & _ & S1).
    destruct (octet_numeral o0 H0) as (_ & _ & S0).
    unfold dotted. rewrite !occurs_app, S3, S2, S1, S0. reflexivity. }
  rewrite append_cons, append_nil, Cut_app by done.
  rewrite parseIPv4_dotted, prefix_numeral by done.
  destruct (Z.leb_spec n 32) as [_|?]; [|lia].
  rewrite land_mask; [done|by apply quad_range|done].
Qed.

(** The number of an address is written as its text. *)
Lemma ipString_quad o3 o2 o1 o0 :
  0 ≤ o3 ≤ 255 → 0 ≤ o2 ≤ 255 → 0 ≤ o1 ≤ 255 → 0 ≤ o0 ≤ 255 →
  ipString (quad o3 o2 o1 o0) = dotted o3 o2 o1 o0.
Proof.
  intros H3 H2 H1 H0. unfold ipString, dotted, octet.
  change 255 with (Z.ones 8).
  rewrite !Z.land_ones, !Z.shiftr_div_pow2 by lia.
  change (8 * 3) with 24. change (8 * 2) with 16.
  change (8 * 1) with 8. change (8 * 0) with 0.
  change (2 ^ 24) with 16777216. change (2 ^ 16) with 65536.
  change (2 ^ 8) with 256. change (2 ^ 0) with 1.
  assert ((quad o3 o2 o1 o0 `div` 16777216) `mod` 256 = o3) as ->.
  { unfold quad. Z.div_mod_to_equations. lia. }
  assert ((quad o3 o2 o1 o0 `div` 65536) `mod` 256 = o2) as ->.
  { unfold quad. Z.div_mod_to_equations. lia. }
  assert ((quad o3 o2 o1 o0 `div` 256) `mod` 256 = o1) as ->.
  { unfold quad. Z.div_mod_to_equations. lia. }
  assert ((quad o3 o2 o1 o0 `div` 1) `mod` 256 = o0) as ->.
  { unfold quad. Z.div_mod_to_equations. lia. }
  reflexivity.
Qed.

(** C2. For every configuration and every block written as four octets
    and a prefix length, [GetNextIP] offers the addresses of the block in
    ascending order, from the second address after the network address
    (the address with the host bits cleared) to the last address of the
    block: the network address and the gateway are never returned. It
    returns [a/32] without error exactly for the smallest such [a] that no
    peer's [AllowedIPs] names, and the exhaustion error exactly when every
    such address is taken; one of the two happens. An address is taken
    exactly when some peer's [AllowedIPs], cut at the [/], is its dotted
    quad, and the dotted quad of an address is the text of its four
    octets. A text without [/] is no block. On 10.100.0.0/24 the result is
    10.100.0.4/32 with peers at .2 and .3, and 10.100.0.2/32 without
    peers. *)
Theorem GetNextIP_first_free :
  (∀ (c : Config) (o3 o2 o1 o0 n : Z),
     0 ≤ o3 ≤ 255 → 0 ≤ o2 ≤ 255 → 0 ≤ o1 ≤ 255 → 0 ≤ o0 ≤ 255 →
     0 ≤ n ≤ 32 →
     let cidr := dotted o3 o2 o1 o0 +:+ "/" +:+ pretty n in
     let size := 2 ^ (32 - n) in
     let network := quad o3 o2 o1 o0 - quad o3 o2 o1 o0 `mod` size in
     (∀ s, GetNextIP c cidr = (s, nil_error) ↔
           ∃ a, s = ipString a +:+ "/32" ∧
                network + 2 ≤ a < network + size ∧
                taken c a = false ∧
                ∀ b, network + 2 ≤ b < a → taken c b = true) ∧
     (GetNextIP c cidr = ("", ErrExhausted) ↔
        ∀ a, network + 2 ≤ a < network + size → taken c a = true) ∧
     ((∃ s, GetNextIP c cidr = (s, nil_error)) ∨
      GetNextIP c cidr = ("", ErrExhausted))) ∧
  (∀ c a, taken c a = true ↔
          ∃ p, p ∈ GetPeers c ∧ hostPart (AllowedIPs p) = ipString a) ∧
  (∀ o3 o2 o1 o0,
     0 ≤ o3 ≤ 255 → 0 ≤ o2 ≤ 255 → 0 ≤ o1 ≤ 255 → 0 ≤ o0 ≤ 255 →
     ipString (quad o3 o2 o1 o0) = dotted o3 o2 o1 o0) ∧
  (∀ c cidr, occurs "/" cidr = false →
             GetNextIP c cidr = ("", ErrInvalidCIDR cidr)) ∧
  GetNextIP twoPeers "10.100.0.0/24" = ("10.100.0.4/32", nil_error) ∧
  GetNextIP noPeers "10.100.0.0/24" = ("10.100.0.2/32", nil_error).
Proof.
  split; [|split; [apply taken_iff|split; [apply ipString_quad|]]].
  2: { split; [|by vm_compute].
       intros c cidr Hcidr. unfold GetNextIP, ParseCIDR.
       by rewrite Cut_None. }
  intros c o3 o2 o1 o0 n H3 H2 H1 H0 Hn cidr size network.
  unfold GetNextIP. subst cidr. rewrite ParseCIDR_dotted by done.
  fold size. fold network.
  split; [|split].
  - intros s. split.
    + destruct (list_find _ _) as [[i a]|] eqn:Hfind; [|done].
      intros [= <-]. exists a.
      apply list_find_Some in Hfind as (Hi & Ha & Hbefore).
      apply candidates_lookup in Hi as [-> Hlast].
      split; [done|]. split; [unfold size; lia|]. split; [done|].
      intros b Hb. apply not_false_iff_true.
      apply (Hbefore (Z.to_nat (b - network - 2))); [|lia].
      apply candidates_lookup. lia.
    + intros (a & -> & Ha & Hfree & Hbefore).
      assert (list_find (λ a, taken c a = false) (candidates network n)
              = Some (Z.to_nat (a - network - 2), a)) as ->; [|done].
      apply list_find_Some. split; [apply candidates_lookup; unfold size in Ha; lia|].
      split; [done|]. intros j b [-> _]%candidates_lookup Hj.
      rewrite Hbefore by lia. done.
  - split.
    + destruct (list_find _ _) as [[i a]|] eqn:Hfind; [done|]. intros _.
      apply list_find_None in Hfind. intros a Ha.
      apply not_false_iff_true.
      apply (proj1 (Forall_forall _ _) Hfind a).
      unfold candidates. apply elem_of_seqZ. unfold size in Ha. lia.
    + intros Hall.
      assert (list_find (λ a, taken c a = false) (candidates network n)
              = None) as ->; [|done].
      apply list_find_None, Forall_forall. intros a Ha.
      unfold candidates in Ha. apply elem_of_seqZ in Ha.
      rewrite Hall; [done|]. unfold size. lia.
  - destruct (list_find _ _) as [[i a]|]; [left; by eexists|by right].
Qed.

(** The allocation of [TestGetNextIP], read off the general statement:
    the block is 10.100.0.0 to 10.100.0.255, .2 and .3 are taken, .4 is
    free. *)
Lemma GetNextIP_first_free_two_peers :
  GetNextIP twoPeers "10.100.0.0/24" = ("10.100.0.4/32", nil_error).
Proof.
  destruct GetNextIP_first_free as [Hgen _].
  destruct (Hgen twoPeers 10 100 0 0 24) as [Hfree _]; [lia..|].
  specialize (Hfree "10.100.0.4/32").
  change (dotted 10 100 0 0 +:+ "/" +:+ pretty 24) with "10.100.0.0/24"
    in Hfree.
  change (quad 10 100 0 0 - quad 10 100 0 0 `mod` 2 ^ (32 - 24))
    with 174325760 in Hfree.
  change (2 ^ (32 - 24)) with 256 in Hfree.
  apply Hfree. exists 174325764.
  split; [reflexivity|]. split; [lia|]. split; [reflexivity|].
  intros b Hb.
  assert (b = 174325762 ∨ b = 174325763) as [-> | ->] by lia;
    reflexivity.
Defined.

End WireGuardFacts.

(** ** More about the dry-run file system *)

Module FileSystemFacts.
Import System SystemFacts Queries.

Section DryRunFS.
Context {Host : Type} `{OperatingSystem Host}.
Implicit Types (h : Host) (fs : DryRunFileSystem) (p q : string).

(** Running one method after another. *)
Lemma then_run {S A B} (m : M S A) (k : M S B) (s s' : S) (a : A) :
  m s = Some (a, s') → (m;; k) s = k s'.
Proof. intros Hm. unfold mbind, M_bind, bind. by rewrite Hm. Qed.

Lemma ReadFile_run h fs p :
  mu fs = Unlocked →
  ReadFile p (h, fs) =
    Some (match written fs !! p with
          | Some data => (data, nil_error)
          | None =>
              match files fs !! p with
              | Some data => (data, nil_error)
              | None => os_ReadFile p h
              end
          end, (h, fs)).
Proof.
  intros Hmu. unfold ReadFile. rewrite locked_free by exact Hmu.
  destruct fs as [m f w c r d]; simpl in Hmu; subst; unfold_method.
  destruct (w !! p); [done|]. by destruct (f !! p).
Qed.

(** What was written is read back, whatever the host and the seeded files
    hold, and a write to one path leaves the reads of every other path as
    they were. *)
Theorem ReadFile_after_WriteFile h fs p q data perm :
  mu fs = Unlocked →
  ∃ before,
    ReadFile q (h, fs) = Some (before, (h, fs)) ∧
    (WriteFile p data perm;; ReadFile q) (h, fs) =
      Some (if decide (q = p) then (data, nil_error) else before,
            (h, store_written p data fs)).
Proof.
  intros Hmu. eexists. split; [by apply ReadFile_run|].
  rewrite (then_run _ _ _ _ _ (WriteFile_run h fs p data perm Hmu)).
  rewrite ReadFile_run by done. simpl. f_equal. f_equal.
  case_decide as Hq.
  - subst q. by rewrite lookup_insert_eq.
  - by rewrite lookup_insert_ne.
Qed.

(** A seeded file is read back, unless a write shadows it: the written data
    win over seeded data, also over data seeded later. *)
Theorem ReadFile_after_AddFile h fs p data :
  mu fs = Unlocked →
  (AddFile p data;; ReadFile p) (h, fs) =
    Some ((default data (written fs !! p), nil_error),
          (h, store_files p data fs)).
Proof.
  intros Hmu.
  rewrite (then_run _ _ _ _ _ (AddFile_run h fs p data Hmu)).
  rewrite ReadFile_run by done. simpl.
  destruct (written fs !! p); [done|]. by rewrite lookup_insert_eq.
Qed.

(** [Remove] is recorded and nothing else: [ReadFile], [Exists] and [Stat]
    answer for every path, the removed one included, what they answered
    before. *)
Theorem Remove_is_invisible h fs p q :
  mu fs = Unlocked →
  ∃ data found info,
    ReadFile q (h, fs) = Some (data, (h, fs)) ∧
    Exists q (h, fs) = Some (found, (h, fs)) ∧
    Stat q (h, fs) = Some (info, (h, fs)) ∧
    (Remove p;; ReadFile q) (h, fs) = Some (data, (h, store_removed p fs)) ∧
    (Remove p;; Exists q) (h, fs) = Some (found, (h, store_removed p fs)) ∧
    (Remove p;; Stat q) (h, fs) = Some (info, (h, store_removed p fs)).
Proof.
  intros Hmu. eexists _, _, _.
  rewrite !(then_run _ _ _ _ _ (Remove_run h fs p Hmu)).
  rewrite !ReadFile_run, !Exists_run, !Stat_run by done.
  by repeat split.
Qed.

(** [Exists] and [Stat] agree, in the dry-run file system as in the real
    one: [Exists] is true exactly when [Stat] returns a nil error. *)
Theorem Exists_agrees_with_Stat h fs p :
  mu fs = Unlocked →
  (∃ found info err,
     Exists p (h, fs) = Some (found, (h, fs)) ∧
     Stat p (h, fs) = Some ((info, err), (h, fs)) ∧
     found = is_nil err) ∧
  (∃ found info err,
     Real_Exists p h = Some (found, h) ∧
     Real_Stat p h = Some ((info, err), h) ∧
     found = is_nil err).
Proof.
  intros Hmu. rewrite Exists_run, Stat_run by done.
  unfold Real_Exists, Real_Stat.
  destruct (os_Stat p h) as [info err]. split.
  - destruct (files fs !! p); [by eexists _, _, _|].
    destruct (created fs !! p); [by eexists _, _, _|].
    destruct (mkdirs fs !! p); by eexists _, _, _.
  - by eexists _, _, _.
Qed.

(** After [AddFile] the path exists and [Stat] reports a regular file of
    size 0 named after the path, whatever the length of the data; after
    [MkdirAll] the path exists, and [Stat] reports a directory unless the
    path is also among the seeded or the created files. *)
Theorem seeded_and_made_paths_exist h fs p data perm :
  mu fs = Unlocked →
  (AddFile p data;; Exists p) (h, fs)
    = Some (true, (h, store_files p data fs)) ∧
  (∃ fi,
     (AddFile p data;; Stat p) (h, fs)
       = Some ((Some fi, nil_error), (h, store_files p data fs)) ∧
     Name fi = p ∧ IsDir fi = false ∧ Size fi = 0 ∧ Mode fi = 420) ∧
  (MkdirAll p perm;; Exists p) (h, fs)
    = Some (true, (h, store_mkdirs p fs)) ∧
  (∃ fi,
     (MkdirAll p perm;; Stat p) (h, fs)
       = Some ((Some fi, nil_error), (h, store_mkdirs p fs)) ∧
     Name fi = p ∧
     IsDir fi = bool_decide (files fs !! p = None ∧ created fs !! p = None)).
Proof.
  intros Hmu.
  rewrite !(then_run _ _ _ _ _ (AddFile_run h fs p data Hmu)).
  rewrite !(then_run _ _ _ _ _ (MkdirAll_run h fs p perm Hmu)).
  rewrite !Exists_run, !Stat_run by done. simpl.
  rewrite !lookup_insert_eq.
  split; [done|]. split; [by eexists|].
  destruct (files fs !! p); [split; [done|by eexists]|].
  destruct (created fs !! p); [split; [done|by eexists]|].
  split; [done|by eexists].
Qed.

(** The recording calls compose as map updates do: of two writes to one
    path the second stands, a repeated [MkdirAll] or [Remove] changes
    nothing more, and calls on different paths or of different kinds can be
    swapped. *)
Theorem recording_calls_compose h fs p q d1 d2 perm1 perm2 :
  mu fs = Unlocked →
  (WriteFile p d1 perm1;; WriteFile p d2 perm2) (h, fs)
    = WriteFile p d2 perm2 (h, fs) ∧
  (MkdirAll p perm1;; MkdirAll p perm2) (h, fs) = MkdirAll p perm2 (h, fs) ∧
  (Remove p;; Remove p) (h, fs) = Remove p (h, fs) ∧
  (p ≠ q →
   (WriteFile p d1 perm1;; WriteFile q d2 perm2) (h, fs)
     = (WriteFile q d2 perm2;; WriteFile p d1 perm1) (h, fs)) ∧
  (WriteFile p d1 perm1;; Remove q) (h, fs)
    = (Remove q;; WriteFile p d1 perm1) (h, fs) ∧
  (WriteFile p d1 perm1;; MkdirAll q perm2) (h, fs)
    = (MkdirAll q perm2;; WriteFile p d1 perm1) (h, fs) ∧
  (MkdirAll p perm1;; Remove q) (h, fs)
    = (Remove q;; MkdirAll p perm1) (h, fs).
Proof.
  intros Hmu.
  rewrite !(then_run _ _ _ _ _ (WriteFile_run h fs _ _ _ Hmu)).
  rewrite !(then_run _ _ _ _ _ (MkdirAll_run h fs _ _ Hmu)).
  rewrite !(then_run _ _ _ _ _ (Remove_run h fs _ Hmu)).
  rewrite !WriteFile_run, !MkdirAll_run, !Remove_run by done.
  unfold store_written, store_mkdirs, store_removed; simpl.
  rewrite !insert_insert_eq.
  repeat split. intros Hpq. by rewrite insert_insert_ne.
Qed.

(** A path that no overlay map holds is read, looked up and inspected as
    the real file system does it on the same host, and the dry-run file
    system stays as it is. *)
Theorem untouched_paths_read_like_real h fs p :
  mu fs = Unlocked →
  written fs !! p = None → files fs !! p = None →
  created fs !! p = None → mkdirs fs !! p = None →
  ∃ data info found,
    Real_ReadFile p h = Some (data, h) ∧
    ReadFile p (h, fs) = Some (data, (h, fs)) ∧
    Real_Stat p h = Some (info, h) ∧
    Stat p (h, fs) = Some (info, (h, fs)) ∧
    Real_Exists p h = Some (found, h) ∧
    Exists p (h, fs) = Some (found, (h, fs)).
Proof.
  intros Hmu Hw Hf Hc Hd.
  rewrite ReadFile_run, Stat_run, Exists_run by done.
  rewrite Hw, Hf, Hc, Hd. by eexists _, _, _.
Qed.

Lemma GetCreatedFiles_run h fs :
  mu fs = Unlocked →
  GetCreatedFiles (h, fs) = Some (created fs, (h, fs)).
Proof.
  intros Hmu. unfold GetCreatedFiles. rewrite locked_free by exact Hmu.
  destruct fs; simpl in Hmu; subst; unfold_method.
  by rewrite copy_map_id.
Qed.

(** One call of any method: it returns, on the same host, with the mutex
    free again and the created-files map as it was. *)
Lemma op_run h fs o :
  mu fs = Unlocked →
  ∃ v fs', op o (h, fs) = Some (v, (h, fs')) ∧
           mu fs' = Unlocked ∧ created fs' = created fs.
Proof.
  intros Hmu. unfold op, mbind, M_bind, bind.
  destruct o as [p|p data perm|p|p|p|p perm|p data| | | |].
  - rewrite ReadFile_run by done.
    destruct (written fs !! p); [by eexists _, _|].
    destruct (files fs !! p); [by eexists _, _|].
    destruct (os_ReadFile p h). by eexists _, _.
  - rewrite WriteFile_run by done. by eexists _, _.
  - rewrite Stat_run by done.
    destruct (files fs !! p); [by eexists _, _|].
    destruct (created fs !! p); [by eexists _, _|].
    destruct (mkdirs fs !! p); [by eexists _, _|].
    destruct (os_Stat p h). by eexists _, _.
  - rewrite Exists_run by done. by eexists _, _.
  - rewrite Remove_run by done. by eexists _, _.
  - rewrite MkdirAll_run by done. by eexists _, _.
  - rewrite AddFile_run by done. by eexists _, _.
  - rewrite GetWrittenFiles_run by done. by eexists _, _.
  - rewrite GetCreatedFiles_run by done. by eexists _, _.
  - rewrite GetRemovedFiles_run by done. by eexists _, _.
  - rewrite GetCreatedDirs_run by done. by eexists _, _.
Qed.

Lemma ops_run h os : ∀ fs,
  mu fs = Unlocked →
  ∃ vs fs', ops os (h, fs) = Some (vs, (h, fs')) ∧
            length vs = length os ∧
            mu fs' = Unlocked ∧ created fs' = created fs.
Proof.
  induction os as [|o os IH]; intros fs Hmu.
  - by exists [], fs.
  - destruct (op_run h fs o Hmu) as (v & fs1 & Ho & Hmu1 & Hc1).
    destruct (IH fs1 Hmu1) as (vs & fs' & Hos & Hlen & Hmu' & Hc').
    exists (v :: vs), fs'. cbn [ops]. unfold mbind, M_bind, bind.
    rewrite Ho, Hos. simpl. rewrite Hlen, Hc', Hc1. done.
Qed.

(** Whatever methods of a fresh dry-run file system a program calls, in
    whatever order, reads and accessors included: every call returns, the
    host is the one the program started on, and afterwards
    [GetCreatedFiles] is empty, since no method ever puts a path into the
    created-files map. *)
Theorem no_method_touches_host_or_created h (os : list Op) :
  ∃ vs fs',
    ops os (h, NewDryRunFileSystem) = Some (vs, (h, fs')) ∧
    length vs = length os ∧
    GetCreatedFiles (h, fs') = Some (∅, (h, fs')).
Proof.
  destruct (ops_run h os NewDryRunFileSystem eq_refl)
    as (vs & fs' & Hos & Hlen & Hmu & Hcreated).
  exists vs, fs'. rewrite GetCreatedFiles_run by done.
  by rewrite Hcreated.
Qed.

End DryRunFS.

Lemma ReadFile_after_WriteFile_seeded :
  mu seeded = Unlocked ∧
  (WriteFile "/test.txt" (bytes_of_string "new") 420;; ReadFile "/test.txt")
    (empty_host, seeded)
  = Some ((bytes_of_string "new", nil_error),
          (empty_host, store_written "/test.txt" (bytes_of_string "new") seeded)).
Proof.
  split; [reflexivity|].
  destruct (ReadFile_after_WriteFile empty_host seeded "/test.txt" "/test.txt"
              (bytes_of_string "new") 420 eq_refl) as (before & _ & Hafter).
  rewrite Hafter. by rewrite decide_True.
Defined.

Lemma ReadFile_after_AddFile_fresh :
  mu NewDryRunFileSystem = Unlocked ∧
  (AddFile "/test.txt" (bytes_of_string "test content");; ReadFile "/test.txt")
    (empty_host, NewDryRunFileSystem)
  = Some ((bytes_of_string "test content", nil_error), (empty_host, seeded)).
Proof.
  split; [reflexivity|].
  by rewrite (ReadFile_after_AddFile empty_host NewDryRunFileSystem
                "/test.txt" (bytes_of_string "test content") eq_refl).
Defined.

Lemma Remove_is_invisible_seeded :
  mu seeded = Unlocked ∧
  (Remove "/test.txt";; ReadFile "/test.txt") (empty_host, seeded)
  = Some ((bytes_of_string "test content", nil_error),
          (empty_host, store_removed "/test.txt" seeded)).
Proof.
  split; [reflexivity|].
  destruct (Remove_is_invisible empty_host seeded "/test.txt" "/test.txt"
              eq_refl)
    as (data & found & info & Hread & _ & _ & Hafter & _).
  rewrite Hafter. f_equal. f_equal.
  rewrite ReadFile_run in Hread by reflexivity.
  by injection Hread as <-.
Defined.

Lemma Exists_agrees_with_Stat_seeded :
  mu seeded = Unlocked ∧
  ∃ found info err,
    Exists "/missing" (empty_host, seeded) = Some (found, (empty_host, seeded)) ∧
    Stat "/missing" (empty_host, seeded)
      = Some ((info, err), (empty_host, seeded)) ∧
    found = is_nil err.
Proof.
  split; [reflexivity|].
  destruct (Exists_agrees_with_Stat empty_host seeded "/missing" eq_refl)
    as [(found & info & err & HExists & HStat & Hagree) _].
  by exists found, info, err.
Defined.

Lemma seeded_and_made_paths_exist_fresh :
  mu NewDryRunFileSystem = Unlocked ∧
  (MkdirAll "/test/dir" 493;; Exists "/test/dir")
    (empty_host, NewDryRunFileSystem)
  = Some (true, (empty_host, store_mkdirs "/test/dir" NewDryRunFileSystem)).
Proof.
  split; [reflexivity|].
  exact (proj1 (proj2 (proj2
    (seeded_and_made_paths_exist empty_host NewDryRunFileSystem "/test/dir"
       None 493 eq_refl)))).
Defined.

Lemma recording_calls_compose_fresh :
  mu NewDryRunFileSystem = Unlocked ∧
  (WriteFile "/a" (bytes_of_string "x") 420;;
   WriteFile "/a" (bytes_of_string "y") 420) (empty_host, NewDryRunFileSystem)
  = WriteFile "/a" (bytes_of_string "y") 420 (empty_host, NewDryRunFileSystem).
Proof.
  split; [reflexivity|].
  exact (proj1
    (recording_calls_compose empty_host NewDryRunFileSystem "/a" "/b"
       (bytes_of_string "x") (bytes_of_string "y") 420 420 eq_refl)).
Defined.

Lemma untouched_paths_read_like_real_seeded :
  mu seeded = Unlocked ∧
  ∃ data,
    Real_ReadFile "/nonexistent" empty_host = Some (data, empty_host) ∧
    ReadFile "/nonexistent" (empty_host, seeded)
      = Some (data, (empty_host, seeded)).
Proof.
  split; [reflexivity|].
  destruct (untouched_paths_read_like_real empty_host seeded "/nonexistent"
              eq_refl eq_refl eq_refl eq_refl eq_refl)
    as (data & info & found & Hreal & Hdry & _).
  by exists data.
Defined.

End FileSystemFacts.

(** ** More about the dry-run command runner *)

Module RunnerQueryFacts.
Import System System.Runner StringFacts RunnerFacts Queries.
Import FileSystemFacts.

Implicit Types (r : DryRunCommandRunner) (ctx : Context) (name : string)
  (args : list string).

Ltac run_method Hmu :=
  rewrite locked_free by exact Hmu;
  match goal with r : DryRunCommandRunner |- _ =>
    destruct r; simpl in Hmu; subst; unfold_method
  end.

Lemma AddOutput_run command out r :
  mu r = Unlocked →
  AddOutput command out r =
    Some (tt, {| mu := Unlocked; ran := ran r;
                 output := <[command:=out]> (output r);
                 errors := errors r |}).
Proof. intros Hmu. unfold AddOutput. by run_method Hmu. Qed.

Lemma LookPath_run file r :
  mu r = Unlocked →
  LookPath file r =
    Some (("/usr/bin/" +:+ file, nil_error), log ("lookpath: " +:+ file) r).
Proof. intros Hmu. unfold LookPath. by run_method Hmu. Qed.

Lemma GetRunCommands_run r :
  mu r = Unlocked → GetRunCommands r = Some (ran r, r).
Proof. intros Hmu. unfold GetRunCommands. by run_method Hmu. Qed.

Lemma Clear_run r :
  mu r = Unlocked →
  Clear r = Some (tt, NewDryRunCommandRunner).
Proof.
  intros Hmu. unfold Clear. run_method Hmu. by rewrite take_0.
Qed.

(** A canned output comes back from [Output] and [CombinedOutput] for the
    command line it was registered for, unless an error is registered for
    the same line: then the error comes back with a nil result. [Run] and
    [Start] take no notice of canned outputs. *)
Theorem canned_output_is_returned ctx name args out r :
  mu r = Unlocked →
  ∃ r',
    ran r' = ran r ++ [String.concat " " (name :: args)] ∧
    (AddOutput (String.concat " " (name :: args)) out;; Output ctx name args) r
      = Some (match errors r !! String.concat " " (name :: args) with
              | Some err => (None, err)
              | None => (out, nil_error)
              end, r') ∧
    (AddOutput (String.concat " " (name :: args)) out;;
     CombinedOutput ctx name args) r
      = Some (match errors r !! String.concat " " (name :: args) with
              | Some err => (None, err)
              | None => (out, nil_error)
              end, r') ∧
    (∃ answer,
       Run ctx name args r = Some (answer, log (String.concat " " (name :: args)) r) ∧
       (AddOutput (String.concat " " (name :: args)) out;; Run ctx name args) r
         = Some (answer, r')) ∧
    (∃ answer,
       Start ctx name args r
         = Some (answer, log (String.concat " " (name :: args)) r) ∧
       (AddOutput (String.concat " " (name :: args)) out;; Start ctx name args) r
         = Some (answer, r')).
Proof.
  intros Hmu. unfold CombinedOutput.
  rewrite !(then_run _ _ _ _ _ (AddOutput_run _ out r Hmu)).
  rewrite !Run_run, !Output_run, !Start_run by done. cbn zeta. simpl.
  rewrite lookup_insert_eq. eexists. split; [|split; [|split; [|split]]].
  2, 3: reflexivity.
  - done.
  - by eexists.
  - by eexists.
Qed.

Lemma canned_output_is_returned_echo :
  mu NewDryRunCommandRunner = Unlocked ∧
  ∃ r',
    (AddOutput "echo hello" (bytes_of_string "hello world");;
     Output Background "echo" ["hello"]) NewDryRunCommandRunner
    = Some ((bytes_of_string "hello world", nil_error), r').
Proof.
  split; [reflexivity|].
  destruct (canned_output_is_returned Background "echo" ["hello"]
              (bytes_of_string "hello world") NewDryRunCommandRunner eq_refl)
    as (r' & _ & HOutput & _).
  exists r'. exact HOutput.
Defined.

(** [Clear] empties the log and forgets every canned output and error: a
    command that had an error registered runs without error afterwards, and
    [Output] is empty again. *)
Theorem Clear_forgets ctx name args r :
  mu r = Unlocked →
  (Clear;; GetRunCommands) r = Some ([], NewDryRunCommandRunner) ∧
  (Clear;; Run ctx name args) r
    = Some (nil_error,
            log (String.concat " " (name :: args)) NewDryRunCommandRunner) ∧
  (Clear;; Output ctx name args) r
    = Some ((Some [], nil_error),
            log (String.concat " " (name :: args)) NewDryRunCommandRunner).
Proof.
  intros Hmu.
  rewrite !(then_run _ _ _ _ _ (Clear_run r Hmu)).
  rewrite GetRunCommands_run, Run_run, Output_run by done.
  done.
Qed.

Lemma Clear_forgets_failing_command :
  mu failing_runner = Unlocked ∧
  (Clear;; Run Background "failing-command" []) failing_runner
  = Some (nil_error, log "failing-command" NewDryRunCommandRunner).
Proof.
  split; [reflexivity|].
  exact (proj1 (proj2
    (Clear_forgets Background "failing-command" [] failing_runner eq_refl))).
Defined.

(** *** The log in call order *)

Lemma command_run r c :
  mu r = Unlocked →
  ∃ answer r',
    command c r = Some (answer, r') ∧ mu r' = Unlocked ∧
    ran r' = ran r ++ option_list (logged c) ∧
    errors r' = canned_errors [c] (errors r) ∧
    output r' = canned_outputs [c] (output r).
Proof.
  intros Hmu. unfold command, CombinedOutput, mbind, M_bind, bind.
  destruct c as [ctx name args|ctx name args|ctx name args|ctx name args
                |file|k out|k err| |t].
  - rewrite Run_run by done. by eexists _, _.
  - rewrite Output_run by done. cbn zeta.
    destruct (errors r !! _); [by eexists _, _|]. by eexists _, _.
  - rewrite Output_run by done. cbn zeta.
    destruct (errors r !! _); [by eexists _, _|]. by eexists _, _.
  - rewrite Start_run by done. cbn zeta.
    destruct (errors r !! _); by eexists _, _.
  - rewrite LookPath_run by done. by eexists _, _.
  - rewrite AddOutput_run by done. eexists _, _. simpl.
    by rewrite app_nil_r.
  - rewrite AddError_run by done. eexists _, _. simpl.
    by rewrite app_nil_r.
  - rewrite GetRunCommands_run by done. eexists _, _. simpl.
    by rewrite app_nil_r.
  - unfold GetCommandsByType. rewrite locked_free by exact Hmu.
    destruct r; simpl in Hmu; subst; unfold_method.
    eexists _, _. by rewrite app_nil_r.
Qed.

(** Whatever a program calls of [Run], [Output], [CombinedOutput],
    [Start], [LookPath], [AddOutput], [AddError], [GetRunCommands] and
    [GetCommandsByType], the methods of the runner that neither empty the
    log nor slice it: every call returns, [GetRunCommands] then shows the
    old log followed by one line per executing call ([Run], [Output],
    [CombinedOutput], [Start], [LookPath]) in call order, and the canned
    errors and outputs are those the [AddError] and [AddOutput] calls put
    there. [Clear] and [GetLastCommands] are not among the calls: the one
    empties the log and the canned answers, the other does not return for
    a negative count. *)
Theorem commands_are_logged_in_order r (cs : list Command) :
  mu r = Unlocked →
  ∃ answers r',
    commands cs r = Some (answers, r') ∧
    length answers = length cs ∧
    GetRunCommands r' = Some (ran r ++ omap logged cs, r') ∧
    errors r' = canned_errors cs (errors r) ∧
    output r' = canned_outputs cs (output r).
Proof.
  revert r. induction cs as [|c cs IH]; intros r Hmu.
  - exists [], r. rewrite GetRunCommands_run by done. simpl.
    by rewrite app_nil_r.
  - destruct (command_run r c Hmu) as (a & r1 & Hc & Hmu1 & Hran & Herr & Hout).
    destruct (IH r1 Hmu1) as (answers & r' & Hcs & Hlen & Hlog & Herr' & Hout').
    exists (a :: answers), r'. cbn [commands]. unfold mbind, M_bind, bind.
    rewrite Hc, Hcs. simpl. rewrite Hlen, Hlog, Herr', Hout', Hran, Herr, Hout.
    repeat split. f_equal. f_equal. rewrite <- app_assoc. f_equal.
    by destruct (logged c).
Qed.

Lemma commands_are_logged_in_order_test :
  mu NewDryRunCommandRunner = Unlocked ∧
  ∃ answers r',
    commands [CmdRun Background "test" ["arg1"; "arg2"];
              CmdAddOutput "echo hello" (bytes_of_string "hello world");
              CmdOutput Background "echo" ["hello"];
              CmdLookPath "test"] NewDryRunCommandRunner
      = Some (answers, r') ∧
    GetRunCommands r'
      = Some (["test arg1 arg2"; "echo hello"; "lookpath: test"], r').
Proof.
  split; [reflexivity|].
  destruct (commands_are_logged_in_order NewDryRunCommandRunner
              [CmdRun Background "test" ["arg1"; "arg2"];
               CmdAddOutput "echo hello" (bytes_of_string "hello world");
               CmdOutput Background "echo" ["hello"];
               CmdLookPath "test"] eq_refl)
    as (answers & r' & Hcs & _ & Hlog & _).
  by exists answers, r'.
Defined.

(** *** [GetLastCommands] *)

(** With a count that is not negative, [GetLastCommands] returns the end of
    the log: as many lines as asked for, or the whole log when it is
    shorter. With a negative count the slice expression is out of range
    and the call does not return. *)
Theorem GetLastCommands_returns_suffix r (count : Z) :
  mu r = Unlocked →
  - 2 ^ 63 ≤ count < 2 ^ 63 →
  Z.of_nat (length (ran r)) < 2 ^ 63 →
  (0 ≤ count →
   ∃ earlier last,
     GetLastCommands count r = Some (last, r) ∧
     ran r = earlier ++ last ∧
     Z.of_nat (length last) = Z.min count (Z.of_nat (length (ran r)))) ∧
  (count < 0 → GetLastCommands count r = None).
Proof.
  intros Hmu Hcount Hlen. unfold GetLastCommands.
  rewrite locked_free by exact Hmu.
  destruct r as [m l o e]; simpl in Hmu, Hlen; subst; unfold_method.
  change (2 ^ 63) with 9223372036854775808 in *.
  destruct (Z.leb_spec (Z.of_nat (length l)) count) as [Hle|Hlt].
  - split; [|lia]. intros _. exists [], l. split; [done|]. split; [done|lia].
  - assert (wrap64 (Z.of_nat (length l) - count)
            = if decide (count ≤ Z.of_nat (length l) - 9223372036854775808)
              then Z.of_nat (length l) - count - 18446744073709551616
              else Z.of_nat (length l) - count) as ->.
    { unfold wrap64.
      change (2 ^ 63) with 9223372036854775808.
      change (2 ^ 64) with 18446744073709551616.
      case_decide.
      - rewrite <- (Z.mod_unique_pos _ 18446744073709551616 1
                     (Z.of_nat (length l) - count - 9223372036854775808));
          lia.
      - rewrite Z.mod_small; lia. }
    unfold slice_from. split.
    + intros Hpos. rewrite decide_False by lia.
      destruct (Z.leb_spec 0 (Z.of_nat (length l) - count)); [|lia].
      destruct (Z.leb_spec (Z.of_nat (length l) - count) (Z.of_nat (length l)));
        [|lia].
      simpl. exists (take (Z.to_nat (Z.of_nat (length l) - count)) l), 
               (drop (Z.to_nat (Z.of_nat (length l) - count)) l).
      split; [done|]. split; [by rewrite take_drop|].
      rewrite length_drop. lia.
    + intros Hneg. case_decide.
      * destruct (Z.leb_spec 0 (Z.of_nat (length l) - count
                                  - 18446744073709551616)); [lia|].
        done.
      * destruct (Z.leb_spec 0 (Z.of_nat (length l) - count)); [|lia].
        destruct (Z.leb_spec (Z.of_nat (length l) - count)
                    (Z.of_nat (length l))); [lia|].
        done.
Qed.

Lemma GetLastCommands_returns_suffix_busy :
  mu busy_runner = Unlocked ∧
  GetLastCommands 2 busy_runner
    = Some (["wg show wg1"; "lookpath: wg"], busy_runner) ∧
  GetLastCommands (-1) busy_runner = None.
Proof.
  split; [reflexivity|].
  destruct (GetLastCommands_returns_suffix busy_runner 2 eq_refl)
    as [Hlast _]; [lia|simpl; lia|].
  destruct (GetLastCommands_returns_suffix busy_runner (-1) eq_refl)
    as [_ Hnone]; [lia|simpl; lia|].
  split; [reflexivity|]. apply Hnone. lia.
Defined.

(** *** [GetCommandsByType] *)

Lemma prefix_iff (pre s : string) :
  String.prefix pre s = true ↔ ∃ t, s = pre +:+ t.
Proof.
  revert s. induction pre as [|a pre IH]; intros s.
  - split; [|by destruct s]. intros _. by exists s.
  - destruct s as [|b s]; simpl.
    + split; [done|]. by intros [t Ht].
    + destruct (ascii_dec a b) as [->|Hab].
      * rewrite IH. split; intros [t Ht]; exists t.
        -- by rewrite append_cons, <- Ht.
        -- rewrite append_cons in Ht. by injection Ht.
      * split; [done|]. intros [t Ht]. rewrite append_cons in Ht.
        injection Ht as <- _. done.
Qed.

Lemma Contains_unfold (s substr : string) :
  Contains s substr =
    String.prefix substr s ||
    match s with
    | "" => false
    | String _ s' => Contains s' substr
    end.
Proof. by destruct s. Qed.

(** [Contains] finds a substring where there is one and only there. *)
Lemma Contains_iff (s substr : string) :
  Contains s substr = true ↔ ∃ a b, s = a +:+ substr +:+ b.
Proof.
  split.
  - induction s as [|c s IH]; rewrite Contains_unfold.
    + rewrite orb_false_r. intros [t Ht]%prefix_iff. by exists "", t.
    + intros [[t Ht]%prefix_iff|Hs]%orb_prop.
      * by exists "", t.
      * destruct (IH Hs) as (a & b & ->). by exists (String c a), b.
  - intros (a & b & ->). induction a as [|c a IH].
    + rewrite append_nil, Contains_unfold.
      apply orb_true_intro. left. apply prefix_iff. by exists b.
    + rewrite append_cons, Contains_unfold.
      apply orb_true_intro. by right.
Qed.

Lemma Contains_empty (s : string) : Contains s "" = true.
Proof. apply Contains_iff. by exists "", s. Qed.

Lemma collect_spec (keep : string → bool) (l : list string) :
  ∀ acc : option (list string),
    let result :=
      fold_left (λ result cmd,
                   if keep cmd then Some (default [] result ++ [cmd])
                   else result) l acc in
    default [] result = default [] acc ++ List.filter keep l ∧
    (result = None ↔ acc = None ∧ List.filter keep l = []).
Proof.
  induction l as [|cmd l IH]; intros acc; cbn zeta; cbn [fold_left List.filter].
  - rewrite app_nil_r. by split; [|split; [|intros []]].
  - destruct (keep cmd).
    + destruct (IH (Some (default [] acc ++ [cmd]))) as [Hcontent Hnil].
      cbn zeta in Hcontent, Hnil. rewrite Hcontent. simpl.
      rewrite <- app_assoc. split; [done|].
      rewrite Hnil. split; intros [? ?]; done.
    + apply IH.
Qed.

(** [GetCommandsByType] returns, in log order, exactly the logged lines
    that have the given text somewhere in them, and leaves the runner as it
    is. No line matching gives the nil slice. The empty text occurs in every
    line, so the whole log comes back for it. *)
Theorem GetCommandsByType_filters_the_log r (cmdType : string) :
  mu r = Unlocked →
  ∃ result,
    GetCommandsByType cmdType r = Some (result, r) ∧
    default [] result = List.filter (λ cmd, Contains cmd cmdType) (ran r) ∧
    (∀ cmd, cmd ∈ default [] result ↔
            cmd ∈ ran r ∧ ∃ a b, cmd = a +:+ cmdType +:+ b) ∧
    (result = None ↔
     Forall (λ cmd, ¬ ∃ a b, cmd = a +:+ cmdType +:+ b) (ran r)) ∧
    (cmdType = "" → default [] result = ran r).
Proof.
  intros Hmu. unfold GetCommandsByType. rewrite locked_free by exact Hmu.
  destruct r as [m l o e]; simpl in Hmu; subst; unfold_method.
  eexists. split; [reflexivity|].
  assert (∀ cmd, String.eqb cmdType "" || Contains cmd cmdType
                 = Contains cmd cmdType) as Hkeep.
  { intros cmd. destruct (String.eqb_spec cmdType "") as [->|_]; [|done].
    by rewrite Contains_empty. }
  destruct (collect_spec (λ cmd, String.eqb cmdType "" || Contains cmd cmdType)
              l None) as [Hcontent Hnil].
  cbn zeta in Hcontent, Hnil. rewrite Hcontent, Hnil. simpl.
  rewrite (filter_ext _ (λ cmd, Contains cmd cmdType) Hkeep).
  split; [done|]. split; [|split].
  - intros cmd. rewrite list_elem_of_In, filter_In, <- list_elem_of_In.
    by rewrite Contains_iff.
  - split.
    + intros [_ Hempty]. apply Forall_forall. intros cmd Hin Hsub.
      apply Contains_iff in Hsub.
      assert (In cmd (List.filter (λ cmd, Contains cmd cmdType) l)) as Hf.
      { apply filter_In. split; [by apply list_elem_of_In|done]. }
      rewrite Hempty in Hf. destruct Hf.
    + intros Hnone. split; [done|].
      clear Hcontent Hnil.
      induction Hnone as [|cmd l' Hcmd Hrest IH]; [reflexivity|]. simpl.
      destruct (Contains cmd cmdType) eqn:Hc; [|exact IH].
      by apply Contains_iff in Hc.
  - intros ->. clear Hcontent Hnil.
    induction l as [|cmd l IH]; [reflexivity|]. simpl.
    by rewrite Contains_empty, IH.
Qed.

Lemma GetCommandsByType_filters_the_log_busy :
  mu busy_runner = Unlocked ∧
  GetCommandsByType "wg show" busy_runner
    = Some (Some ["wg show wg0"; "wg show wg1"], busy_runner) ∧
  ∃ result,
    GetCommandsByType "iptables" busy_runner = Some (result, busy_runner) ∧
    result = None.
Proof.
  split; [reflexivity|]. split; [reflexivity|].
  destruct (GetCommandsByType_filters_the_log busy_runner "iptables" eq_refl)
    as (result & Hget & _ & _ & Hnone & _).
  exists result. split; [exact Hget|].
  apply Hnone. simpl.
  repeat constructor; intros Hsub%Contains_iff; discriminate Hsub.
Defined.

(** *** Command lines do not keep the argument boundaries *)

Lemma concat_merge (l1 l2 : list string) (a b : string) :
  String.concat " " (l1 ++ (a +:+ " " +:+ b) :: l2)
  = String.concat " " (l1 ++ a :: b :: l2).
Proof.
  induction l1 as [|x l1 IH].
  - destruct l2 as [|c l2]; [done|].
    cbn [app]. rewrite !(concat_cons_sep " " _ (_ :: _)) by done.
    by rewrite !append_assoc.
  - cbn [app]. rewrite !(concat_cons_sep " " x) by (by destruct l1).
    by rewrite IH.
Qed.

Lemma Run_ext ctx name args args' :
  commandString (name :: args) = commandString (name :: args') →
  Run ctx name args = Run ctx name args' ∧
  Output ctx name args = Output ctx name args' ∧
  CombinedOutput ctx name args = CombinedOutput ctx name args' ∧
  Start ctx name args = Start ctx name args'.
Proof.
  intros Heq. unfold CombinedOutput, Run, Output, Start. cbn [app].
  by rewrite Heq.
Qed.

(** The runner keeps command lines, not argument lists: one argument with a
    space in it and the two arguments on either side of the space give the
    same line, so [Run], [Output], [CombinedOutput] and [Start] log the same
    and return the same canned answer for both, in every state. *)
Theorem arguments_with_spaces_are_split ctx name (before after : list string)
    (a b : string) :
  commandString (name :: before ++ (a +:+ " " +:+ b) :: after)
    = commandString (name :: before ++ a :: b :: after) ∧
  Run ctx name (before ++ (a +:+ " " +:+ b) :: after)
    = Run ctx name (before ++ a :: b :: after) ∧
  Output ctx name (before ++ (a +:+ " " +:+ b) :: after)
    = Output ctx name (before ++ a :: b :: after) ∧
  CombinedOutput ctx name (before ++ (a +:+ " " +:+ b) :: after)
    = CombinedOutput ctx name (before ++ a :: b :: after) ∧
  Start ctx name (before ++ (a +:+ " " +:+ b) :: after)
    = Start ctx name (before ++ a :: b :: after).
Proof.
  assert (commandString (name :: before ++ (a +:+ " " +:+ b) :: after)
          = commandString (name :: before ++ a :: b :: after)) as Heq.
  { rewrite !commandString_join. f_equal.
    apply (concat_merge (name :: before)). }
  split; [exact Heq|]. by apply Run_ext.
Qed.

End RunnerQueryFacts.

(** ** The ACME DNS providers *)

Module AcmeFacts.
Import Strings Acme.

Section Providers.
Context {R Provider : Type} `{Lego R Provider}.
Implicit Types (w : World R) (p q : @ChallengeProvider R Provider)
  (f : @LogFn R) (cfg : DNSProviderConfig).

(** One layer of logging: a line before the call of the wrapped provider,
    its error handed on, and after the call two lines for a successful
    [Present], one for a failed one and one for a [CleanUp]. *)
Lemma logging_layer q f (domain token keyAuth : string) w :
  (match Present q domain token keyAuth
           (f ("  Creating DNS TXT record: _acme-challenge." +:+ domain) w)
   with
   | Some (err, w') =>
       ∃ msgs,
         Present (LoggingProvider q (Some f)) domain token keyAuth w
           = Some (err, fold_left (λ w m, f m w) msgs w') ∧
         length msgs = if is_nil err then 2%nat else 1%nat
   | None =>
       Present (LoggingProvider q (Some f)) domain token keyAuth w = None
   end) ∧
  (match CleanUp q domain token keyAuth
           (f ("  Cleaning up DNS TXT record: _acme-challenge." +:+ domain) w)
   with
   | Some (err, w') =>
       ∃ msg,
         CleanUp (LoggingProvider q (Some f)) domain token keyAuth w
           = Some (err, f msg w')
   | None =>
       CleanUp (LoggingProvider q (Some f)) domain token keyAuth w = None
   end).
Proof.
  split.
  - cbn [Present].
    unfold mbind, M_bind, bind, call, modify, get, elapsed, mret, M_ret, ret.
    change ("  Creating DNS TXT record: " +:+ "_acme-challenge." +:+ domain)
      with ("  Creating DNS TXT record: _acme-challenge." +:+ domain).
    destruct (Present q domain token keyAuth _) as [[[|msg] w']|];
      [by eexists [_; _]|by eexists [_]|reflexivity].
  - cbn [CleanUp].
    unfold mbind, M_bind, bind, call, modify, get, elapsed, mret, M_ret, ret.
    change ("  Cleaning up DNS TXT record: " +:+ "_acme-challenge." +:+ domain)
      with ("  Cleaning up DNS TXT record: _acme-challenge." +:+ domain).
    destruct (CleanUp q domain token keyAuth _) as [[[|msg] w']|];
      [by eexists|by eexists|reflexivity].
Qed.

(** The logging wrapper is transparent, however often a provider is
    wrapped. Each layer logs one line and hands domain, token and key
    authorisation on; the wrapped provider is called once; its error comes
    back through all layers, success or failure alike; and all the layers
    add to the world the provider left are log lines, two per layer after a
    successful [Present], one per layer after a failed one. Where the
    wrapped provider does not return, neither does the wrapper. *)
Theorem logging_is_transparent (n : nat) q f
    (domain token keyAuth : string) w :
  ∃ before,
    length before = n ∧
    match Present q domain token keyAuth
            (fold_left (λ w m, f m w) before w) with
    | Some (err, w') =>
        ∃ after,
          Present (Nat.iter n (λ p, LoggingProvider p (Some f)) q)
            domain token keyAuth w
          = Some (err, fold_left (λ w m, f m w) after w') ∧
          length after = (if is_nil err then 2 * n else n)%nat
    | None =>
        Present (Nat.iter n (λ p, LoggingProvider p (Some f)) q)
          domain token keyAuth w = None
    end.
Proof.
  revert w. induction n as [|n IH]; intros w.
  - exists []. split; [done|]. simpl.
    destruct (Present q domain token keyAuth w) as [[err w']|]; [|done].
    exists []. by destruct (is_nil err).
  - destruct (IH (f ("  Creating DNS TXT record: _acme-challenge."
                     +:+ domain) w)) as (before & Hlen & Hinner).
    exists (("  Creating DNS TXT record: _acme-challenge." +:+ domain)
            :: before).
    split; [by rewrite <- Hlen|]. cbn [fold_left].
    change (Nat.iter (S n) (λ p, LoggingProvider p (Some f)) q)
      with (LoggingProvider (Nat.iter n (λ p, LoggingProvider p (Some f)) q)
              (Some f)).
    destruct (logging_layer (Nat.iter n (λ p, LoggingProvider p (Some f)) q)
                f domain token keyAuth w) as [Hlayer _].
    destruct (Present q domain token keyAuth _) as [[err w']|].
    + destruct Hinner as (after & Hrun & Hafter). rewrite Hrun in Hlayer.
      destruct Hlayer as (msgs & -> & Hmsgs).
      exists (after ++ msgs). rewrite fold_left_app. split; [done|].
      rewrite length_app, Hafter, Hmsgs. destruct (is_nil err); lia.
    + by rewrite Hinner in Hlayer.
Qed.

(** The same for [CleanUp], with one line per layer after the call. *)
Theorem logging_is_transparent_for_CleanUp (n : nat) q f
    (domain token keyAuth : string) w :
  ∃ before,
    length before = n ∧
    match CleanUp q domain token keyAuth
            (fold_left (λ w m, f m w) before w) with
    | Some (err, w') =>
        ∃ after,
          CleanUp (Nat.iter n (λ p, LoggingProvider p (Some f)) q)
            domain token keyAuth w
          = Some (err, fold_left (λ w m, f m w) after w') ∧
          length after = n
    | None =>
        CleanUp (Nat.iter n (λ p, LoggingProvider p (Some f)) q)
          domain token keyAuth w = None
    end.
Proof.
  revert w. induction n as [|n IH]; intros w.
  - exists []. split; [done|]. simpl.
    destruct (CleanUp q domain token keyAuth w) as [[err w']|]; [|done].
    by exists [].
  - destruct (IH (f ("  Cleaning up DNS TXT record: _acme-challenge."
                     +:+ domain) w)) as (before & Hlen & Hinner).
    exists (("  Cleaning up DNS TXT record: _acme-challenge." +:+ domain)
            :: before).
    split; [by rewrite <- Hlen|]. cbn [fold_left].
    change (Nat.iter (S n) (λ p, LoggingProvider p (Some f)) q)
      with (LoggingProvider (Nat.iter n (λ p, LoggingProvider p (Some f)) q)
              (Some f)).
    destruct (logging_layer (Nat.iter n (λ p, LoggingProvider p (Some f)) q)
                f domain token keyAuth w) as [_ Hlayer].
    destruct (CleanUp q domain token keyAuth _) as [[err w']|].
    + destruct Hinner as (after & Hrun & Hafter). rewrite Hrun in Hlayer.
      destruct Hlayer as (msg & ->).
      exists (after ++ [msg]). rewrite fold_left_app. split; [done|].
      rewrite length_app, Hafter. simpl. lia.
    + by rewrite Hinner in Hlayer.
Qed.

(** A provider under one or more logging wrappers always has a timeout:
    its own where it has a [Timeout] method, and two minutes with a check
    every five seconds where it has none or is nil. *)
Theorem Timeout_of_logging_provider (n : nat) q (logFn : option LogFn) :
  Timeout (Nat.iter (S n) (λ p, LoggingProvider p logFn) q)
    = Some (default (2 * Minute, 5 * Second) (Timeout q)).
Proof.
  induction n as [|n IH].
  - change (Nat.iter 1 (λ p, LoggingProvider p logFn) q)
      with (LoggingProvider q logFn).
    cbn [Timeout]. by destruct (Timeout q).
  - change (Nat.iter (S (S n)) (λ p, LoggingProvider p logFn) q)
      with (LoggingProvider (Nat.iter (S n) (λ p, LoggingProvider p logFn) q)
              logFn).
    cbn [Timeout]. cbn [Timeout] in IH. by rewrite IH.
Qed.

(** *** Creating a provider *)

Lemma export_if_run switch key value w :
  String.eqb key "" || occurs "=" key || occurs "000" key = false →
  export_if switch key value w =
    Some (tt, if exportable switch value
              then {| environ := <[key:=value]> (environ w);
                      outside := outside w |}
              else w).
Proof.
  intros Hkey. unfold export_if, exportable.
  destruct (String.eqb switch ""); [done|].
  unfold mbind, M_bind, bind, Setenv. rewrite Hkey. simpl.
  by destruct (occurs "000" value).
Qed.

Lemma export_if_frame switch key value w :
  String.eqb key "" || occurs "=" key || occurs "000" key = false →
  ∃ w',
    export_if switch key value w = Some (tt, w') ∧
    outside w' = outside w ∧
    ∀ k, environ w' !! k =
         if decide (k = key)
         then (if exportable switch value then Some value
               else environ w !! k)
         else environ w !! k.
Proof.
  intros Hkey. rewrite export_if_run by done. eexists. split; [done|].
  destruct (exportable switch value); simpl.
  - split; [done|]. intros k. case_decide as Hk.
    + subst k. apply lookup_insert_eq.
    + by apply lookup_insert_ne.
  - split; [done|]. intros k. by case_decide.
Qed.

Lemma created_run prefix (new : World R → Provider * error) w :
  ∃ p err,
    created prefix new w = Some ((p, err), w) ∧
    (p ≠ NoProvider ↔ err = nil_error) ∧
    (err = nil_error → ∃ x, p = External x).
Proof.
  unfold created, mbind, M_bind, bind, get.
  destruct (new w) as [x [|msg]]; simpl.
  - eexists _, _. split; [done|]. split; [done|]. by eexists.
  - eexists _, _. split; [done|]. split; [|done]. by split.
Qed.

(** The part of [CreateChallengeProvider] after the constructor. *)
Lemma continue_run (create : M (World R) (ChallengeProvider * error))
    (logFn : option LogFn) p err w w' :
  create w = Some ((p, err), w') →
  (p' ← create;
   let '(provider, err) := p' in
   if is_nil err then mret (wrapWithLogging provider logFn, nil_error)
   else mret (NoProvider, err)) w
  = Some (if is_nil err then (wrapWithLogging p logFn, nil_error)
          else (NoProvider, err), w').
Proof.
  intros Hc. unfold mbind, M_bind, bind. rewrite Hc. by destruct (is_nil err).
Qed.

(** Running an [export_if] at the head of a sequence. *)
Ltac export Hout Henv :=
  match goal with
  | |- context [(export_if ?sw ?key ?v;; ?k) ?w] =>
      let w' := fresh "w" in
      let Hrun := fresh "Hrun" in
      destruct (export_if_frame sw key v w eq_refl)
        as (w' & Hrun & Hout & Henv);
      change ((export_if sw key v;; k) w)
        with (bind (export_if sw key v) (λ _, k) w);
      unfold bind at 1; rewrite Hrun; clear Hrun
  end.

(** Looking a variable up after the [export_if]s of a constructor: the
    variable is one of the constructor's, or none of them. *)
Ltac env_lookup variables key :=
  unfold exported;
  let Hin := fresh "Hin" in
  destruct (decide (key ∈ variables.*1)) as [Hin|Hin];
  [ cbn in Hin; rewrite !elem_of_cons in Hin;
    repeat (destruct Hin as [->|Hin]; [reflexivity|]);
    by apply not_elem_of_nil in Hin
  | rewrite (not_elem_of_list_to_map_1 _ _ Hin);
    cbn in Hin; rewrite !not_elem_of_cons in Hin;
    repeat (let Hne := fresh "Hne" in
            destruct Hin as [Hne Hin];
            match type of Hne with
            | ?a ≠ ?b => rewrite !(decide_False (P := a = b)) by exact Hne
            end);
    reflexivity ].

Lemma createRoute53Provider_run cfg w :
  ∃ p err w',
    createRoute53Provider cfg w = Some ((p, err), w') ∧
    outside w' = outside w ∧
    (p ≠ NoProvider ↔ err = nil_error) ∧
    (err = nil_error → ∃ x, p = External x) ∧
    ∀ key, environ w' !! key
           = exported (route53_variables cfg) key (environ w !! key).
Proof.
  unfold createRoute53Provider.
  export Hout1 Henv1. export Hout2 Henv2. export Hout3 Henv3.
  export Hout4 Henv4. export Hout5 Henv5.
  destruct (created_run "failed to create route53 provider"
              route53_NewDNSProvider w4) as (p & err & -> & Hp & Hx).
  exists p, err, w4. split; [done|]. split; [congruence|].
  split; [done|]. split; [done|].
  intros key. rewrite Henv5, Henv4, Henv3, Henv2, Henv1.
  by env_lookup (route53_variables cfg) key.
Qed.

Lemma createNamecomProvider_run cfg w :
  ∃ p err w',
    createNamecomProvider cfg w = Some ((p, err), w') ∧
    outside w' = outside w ∧
    (p ≠ NoProvider ↔ err = nil_error) ∧
    (err = nil_error → ∃ x, p = External x) ∧
    ∀ key, environ w' !! key
           = exported (namecom_variables cfg) key (environ w !! key).
Proof.
  unfold createNamecomProvider.
  export Hout1 Henv1. export Hout2 Henv2.
  destruct (created_run "failed to create namecom provider"
              namedotcom_NewDNSProvider w1) as (p & err & -> & Hp & Hx).
  exists p, err, w1. split; [done|]. split; [congruence|].
  split; [done|]. split; [done|].
  intros key. rewrite Henv2, Henv1.
  by env_lookup (namecom_variables cfg) key.
Qed.

Lemma createCloudflareProvider_run cfg w :
  ∃ p err w',
    createCloudflareProvider cfg w = Some ((p, err), w') ∧
    outside w' = outside w ∧
    (p ≠ NoProvider ↔ err = nil_error) ∧
    (err = nil_error → ∃ x, p = External x) ∧
    ∀ key, environ w' !! key
           = exported (cloudflare_variables cfg) key (environ w !! key).
Proof.
  unfold createCloudflareProvider.
  export Hout1 Henv1. export Hout2 Henv2.
  destruct (created_run "failed to create cloudflare provider"
              cloudflare_NewDNSProvider w1) as (p & err & -> & Hp & Hx).
  exists p, err, w1. split; [done|]. split; [congruence|].
  split; [done|]. split; [done|].
  intros key. rewrite Henv2, Henv1.
  by env_lookup (cloudflare_variables cfg) key.
Qed.

(** Everything [CreateChallengeProvider] does, in one statement. *)
Lemma CreateChallengeProvider_run cfg (logFn : option LogFn) w :
  ∃ p err w',
    CreateChallengeProvider (Some cfg) logFn w = Some ((p, err), w') ∧
    outside w' = outside w ∧
    (p ≠ NoProvider ↔ err = nil_error) ∧
    (err = nil_error →
     ∃ x : Provider, p = wrapWithLogging (External x) logFn) ∧
    (variables cfg = [] →
     err = new_error ("unknown dns provider type for ACME: "
                      +:+ ProviderType cfg) ∧ w' = w) ∧
    ∀ key, environ w' !! key
           = exported (variables cfg) key (environ w !! key).
Proof.
  assert (∀ x : Provider,
            wrapWithLogging (External x) logFn ≠ NoProvider) as Hwrap.
  { intros x. by destruct logFn. }
  unfold CreateChallengeProvider, variables. cbn zeta.
  destruct (String.eqb (ProviderType cfg) DNSProviderRoute53).
  { destruct (createRoute53Provider_run cfg w)
      as (p & err & w' & Hrun & Hout & Hp & Hx & Henv).
    rewrite (continue_run _ logFn _ _ _ _ Hrun).
    destruct err as [|msg]; simpl.
    - destruct (Hx eq_refl) as [x ->]. eexists _, _, _.
      split; [done|]. split; [done|]. split; [by split|].
      split; [by exists x|]. by split.
    - eexists _, _, _. split; [done|]. split; [done|].
      split; [by split|]. by split. }
  destruct (String.eqb (ProviderType cfg) DNSProviderNamecom).
  { destruct (createNamecomProvider_run cfg w)
      as (p & err & w' & Hrun & Hout & Hp & Hx & Henv).
    rewrite (continue_run _ logFn _ _ _ _ Hrun).
    destruct err as [|msg]; simpl.
    - destruct (Hx eq_refl) as [x ->]. eexists _, _, _.
      split; [done|]. split; [done|]. split; [by split|].
      split; [by exists x|]. by split.
    - eexists _, _, _. split; [done|]. split; [done|].
      split; [by split|]. by split. }
  destruct (String.eqb (ProviderType cfg) DNSProviderCloudflare).
  { destruct (createCloudflareProvider_run cfg w)
      as (p & err & w' & Hrun & Hout & Hp & Hx & Henv).
    rewrite (continue_run _ logFn _ _ _ _ Hrun).
    destruct err as [|msg]; simpl.
    - destruct (Hx eq_refl) as [x ->]. eexists _, _, _.
      split; [done|]. split; [done|]. split; [by split|].
      split; [by exists x|]. by split.
    - eexists _, _, _. split; [done|]. split; [done|].
      split; [by split|]. by split. }
  eexists _, _, _. split; [done|]. split; [done|].
  split; [by split|]. by split.
Qed.

(** [CreateChallengeProvider] always returns, and returns either a provider
    and a nil error or the nil provider and an error. Without a
    configuration, and with a type that is none of the three, it fails with
    its own message and leaves the world as it was. In every case it leaves
    everything but the environment variables alone. *)
Theorem CreateChallengeProvider_outcomes (config : option DNSProviderConfig)
    (logFn : option LogFn) w :
  ∃ p err w',
    CreateChallengeProvider config logFn w = Some ((p, err), w') ∧
    outside w' = outside w ∧
    (p ≠ NoProvider ↔ err = nil_error) ∧
    (config = None →
     err = new_error "dns provider config is nil" ∧ w' = w) ∧
    (∀ c, config = Some c →
          ProviderType c ≠ "route53" → ProviderType c ≠ "namecom" →
          ProviderType c ≠ "cloudflare" →
          err = new_error ("unknown dns provider type for ACME: "
                           +:+ ProviderType c) ∧ w' = w).
Proof.
  destruct config as [cfg|].
  - destruct (CreateChallengeProvider_run cfg logFn w)
      as (p & err & w' & Hrun & Hout & Hp & _ & Hunknown & _).
    exists p, err, w'. split; [done|]. split; [done|]. split; [done|].
    split; [done|]. intros c [= <-] H1 H2 H3. apply Hunknown.
    unfold variables, DNSProviderRoute53, DNSProviderNamecom,
      DNSProviderCloudflare.
    by rewrite !(proj2 (String.eqb_neq _ _)).
  - eexists _, _, _. split; [done|]. split; [done|]. split; [by split|].
    split; [done|]. by intros c [=].
Qed.

(** A provider that [CreateChallengeProvider] returned without error is a
    provider of the library, under the logging wrapper when a log function
    was given and bare when none was; its [Present] and [CleanUp] return,
    with the error of the library's provider. *)
Theorem created_providers_are_usable (config : option DNSProviderConfig)
    (logFn : option LogFn) w p w' :
  CreateChallengeProvider config logFn w = Some ((p, nil_error), w') →
  ∃ x,
    p = match logFn with
        | Some f => LoggingProvider (External x) (Some f)
        | None => External x
        end ∧
    ∀ domain token keyAuth w0,
      (∃ w1 w2,
         Present p domain token keyAuth w0
           = Some ((provider_Present x domain token keyAuth w1).1, w2)) ∧
      (∃ w1 w2,
         CleanUp p domain token keyAuth w0
           = Some ((provider_CleanUp x domain token keyAuth w1).1, w2)).
Proof.
  intros Hcreate. destruct config as [cfg|]; [|done].
  destruct (CreateChallengeProvider_run cfg logFn w)
    as (p' & err & w'' & Hrun & _ & _ & Hx & _).
  rewrite Hrun in Hcreate. injection Hcreate as <- -> <-.
  destruct (Hx eq_refl) as [x ->]. exists x. split; [by destruct logFn|].
  intros domain token keyAuth w0.
  destruct logFn as [f|]; cbn [wrapWithLogging].
  - destruct (logging_layer (External x) f domain token keyAuth w0)
      as [HPresent HCleanUp].
    assert (∀ w1, Present (External x) domain token keyAuth w1
                  = Some (provider_Present x domain token keyAuth w1))
      as HE by done.
    assert (∀ w1, CleanUp (External x) domain token keyAuth w1
                  = Some (provider_CleanUp x domain token keyAuth w1))
      as HE' by done.
    rewrite HE in HPresent. rewrite HE' in HCleanUp.
    destruct (provider_Present x domain token keyAuth _) as [err1 w1] eqn:H1.
    destruct (provider_CleanUp x domain token keyAuth _) as [err2 w2] eqn:H2.
    destruct HPresent as (msgs & -> & _). destruct HCleanUp as (msg & ->).
    split; eexists _, _.
    + by rewrite H1.
    + by rewrite H2.
  - cbn [Present CleanUp]. unfold extern. split.
    + exists w0, (provider_Present x domain token keyAuth w0).2.
      by destruct (provider_Present x domain token keyAuth w0).
    + exists w0, (provider_CleanUp x domain token keyAuth w0).2.
      by destruct (provider_CleanUp x domain token keyAuth w0).
Qed.


(** The Cloudflare zone id is a switch and nothing more: when it is not
    empty, [CF_ZONE_API_TOKEN] is set, to the API token; the zone id
    itself reaches no variable. Two Cloudflare configurations with the same
    API token whose zone ids are both empty or both not empty give the same
    result in every world. *)
Theorem cloudflare_zone_id_is_a_switch cfg cfg' (logFn : option LogFn) w :
  ProviderType cfg = DNSProviderCloudflare →
  ProviderType cfg' = DNSProviderCloudflare →
  CloudflareAPIToken cfg = CloudflareAPIToken cfg' →
  (CloudflareZoneID cfg = "" ↔ CloudflareZoneID cfg' = "") →
  CreateChallengeProvider (Some cfg) logFn w
    = CreateChallengeProvider (Some cfg') logFn w ∧
  ∃ p err w',
    CreateChallengeProvider (Some cfg) logFn w = Some ((p, err), w') ∧
    environ w' !! "CF_ZONE_API_TOKEN"
      = if exportable (CloudflareZoneID cfg) (CloudflareAPIToken cfg)
        then Some (CloudflareAPIToken cfg)
        else environ w !! "CF_ZONE_API_TOKEN".
Proof.
  intros Htype Htype' Htoken Hzone. split.
  - unfold CreateChallengeProvider. rewrite Htype, Htype'. cbn.
    unfold createCloudflareProvider. rewrite Htoken.
    assert (∀ key value,
              export_if (CloudflareZoneID cfg) key value
              = export_if (CloudflareZoneID cfg') key value) as ->; [|done].
    intros key value. unfold export_if.
    destruct (String.eqb_spec (CloudflareZoneID cfg) "") as [Hz|Hz],
             (String.eqb_spec (CloudflareZoneID cfg') "") as [Hz'|Hz'];
      try done; by destruct Hzone as [? ?]; exfalso; auto.
  - destruct (CreateChallengeProvider_run cfg logFn w)
      as (p & err & w' & Hrun & _ & _ & _ & _ & Henv).
    exists p, err, w'. split; [done|]. rewrite Henv.
    unfold variables. by rewrite Htype.
Qed.

End Providers.

(** *** Examples in the small world *)

Lemma created_providers_are_usable_aws :
  ∃ p w',
    CreateChallengeProvider (Some awsConfig) (Some print) quiet
      = Some ((p, nil_error), w') ∧
    ∃ x w1 w2,
      Present p "example.com" "token" "key" w'
        = Some ((provider_Present x "example.com" "token" "key" w1).1, w2).
Proof.
  assert (∃ p w', CreateChallengeProvider (Some awsConfig) (Some print) quiet
                  = Some ((p, nil_error), w')) as (p & w' & Hcreate).
  { by eexists _, _. }
  destruct (created_providers_are_usable _ _ _ _ _ Hcreate) as (x & Hp & Huse).
  destruct (Huse "example.com" "token" "key" w') as [(w1 & w2 & HP) _].
  exists p, w'. split; [exact Hcreate|]. by exists x, w1, w2.
Defined.

Lemma cloudflare_zone_id_is_a_switch_example :
  CreateChallengeProvider (Some (cloudflareConfig "zone-a")) None quiet
  = CreateChallengeProvider (Some (cloudflareConfig "zone-b")) None quiet.
Proof.
  refine (proj1 (cloudflare_zone_id_is_a_switch (cloudflareConfig "zone-a")
                   (cloudflareConfig "zone-b") None quiet
                   eq_refl eq_refl eq_refl _)).
  split; discriminate.
Defined.

End AcmeFacts.
